(** * Degradation rate, BIC and BV/TV of segmented µCT stacks

    Shallow embedding of the functions of [Code.ipynb] (module level
    functions and the [Sample] class) and the properties of its
    specification that are settled on them. *)

From Stdlib Require Import ZArith Lia Reals Lra.
From stdpp Require Import base list gmap strings.

Local Open Scope Z_scope.

(** ** Python results

    A call either returns a value or raises.  Only the exception classes
    the notebook can raise are listed. *)

Inductive exn : Set :=
| ValueError
| IndexError
| KeyError
| ZeroDivisionError.

Inductive result (A : Type) : Type :=
| Ok (a : A)
| Raise (e : exn).
Arguments Ok {A} a.
Arguments Raise {A} e.

#[global] Instance result_ret : MRet result := λ A a, Ok a.
#[global] Instance result_bind : MBind result := λ A B k r,
  match r with
  | Ok a => k a
  | Raise e => Raise e
  end.

Definition raises {A} (r : result A) : Prop := ∃ e, r = Raise e.

(** ** Arrays

    A numpy array of labels is a nested list, outermost axis first: a
    stack is indexed [(z, y, x)], a slice [(y, x)].  Every numpy array is
    rectangular; [shape2] and [shape3] say so. *)

Abbreviation Image1 := (list Z).
Abbreviation Image2 := (list (list Z)).
Abbreviation Image3 := (list (list (list Z))).

Definition shape2 {A} (ny nx : nat) (s : list (list A)) : Prop :=
  length s = ny ∧ Forall (λ r, length r = nx) s.

Definition shape3 {A} (nz ny nx : nat) (V : list (list (list A))) : Prop :=
  length V = nz ∧ Forall (shape2 ny nx) V.

(** [a[:-1]] and [a[1:]] along the first axis of [a]. *)
Definition but_last {A} (l : list A) : list A := take (length l - 1) l.
Definition from_1 {A} (l : list A) : list A := drop 1 l.

(** Elementwise operations on slices and stacks *)
Definition map2 {A B} (f : A → B) (a : list (list A)) : list (list B) :=
  (λ r : list A, f <$> r) <$> a.
Definition map3 {A B} (f : A → B) (a : list (list (list A))) :
    list (list (list B)) :=
  map2 f <$> a.
Definition zip_with3 {A B C} (f : A → B → C) :
    list (list (list A)) → list (list (list B)) → list (list (list C)) :=
  zip_with (zip_with (zip_with f)).

(** [image.ravel()] *)
Definition ravel2 (s : Image2) : list Z := concat s.
Definition ravel3 (V : Image3) : list Z := concat (ravel2 <$> V).

(** [image == label], elementwise *)
Definition eq1 (r : Image1) (label : Z) : list bool :=
  (λ v, bool_decide (v = label)) <$> r.
Definition eq2 (s : Image2) (label : Z) : list (list bool) :=
  (λ r, eq1 r label) <$> s.
Definition eq3 (V : Image3) (label : Z) : list (list (list bool)) :=
  (λ s, eq2 s label) <$> V.

(** [np.logical_and] of two arrays of one shape *)
Definition logical_and1 : list bool → list bool → list bool :=
  zip_with andb.
Definition logical_and2 : list (list bool) → list (list bool) → list (list bool) :=
  zip_with logical_and1.
Definition logical_and3 := zip_with logical_and2.

(** [np.count_nonzero] *)
Definition count_nonzero1 (b : list bool) : nat := sum_list_with Nat.b2n b.
Definition count_nonzero2 (b : list (list bool)) : nat :=
  sum_list_with count_nonzero1 b.
Definition count_nonzero3 (b : list (list (list bool))) : nat :=
  sum_list_with count_nonzero2 b.

(** ** [skimage.exposure.histogram] on an integer image

    The library gives every integer between the smallest and the largest
    value of the image a bin of its own: the bin centres are
    [arange(image.min(), image.max() + 1)] and [counts[i]] is the number
    of elements equal to [centers[i]].  The minimum of an empty array
    raises [ValueError]. *)

Definition count_value (vals : list Z) (c : Z) : Z :=
  Z.of_nat (length (filter (λ v, v = c) vals)).

Definition arange (lo hi : Z) : list Z :=
  (λ i : nat, lo + Z.of_nat i) <$> seq 0 (Z.to_nat (hi - lo)).

Definition histogram (vals : list Z) : result (list Z * list Z) :=
  match vals with
  | [] => Raise ValueError
  | v :: vs =>
      let image_min := foldr Z.min v vs in
      let image_max := foldr Z.max v vs in
      let bin_centers := arange image_min (image_max + 1) in
      Ok (count_value vals <$> bin_centers, bin_centers)
  end.

(** ** Contact counting *)

Definition contact_area (image : Image3) (label1 label2 : Z) : result Z :=
  '(counts, bin_centers) ← histogram (ravel3 image);
  if bool_decide (label1 ∉ bin_centers ∨ label2 ∉ bin_centers) then Raise ValueError
  else
    let x_contact_1 := logical_and3 (eq3 (fmap (M:=list) but_last <$> image) label1)
                                    (eq3 (fmap (M:=list) from_1 <$> image) label2) in
    let x_contact_2 := logical_and3 (eq3 (fmap (M:=list) but_last <$> image) label2)
                                    (eq3 (fmap (M:=list) from_1 <$> image) label1) in
    let y_contact_1 := logical_and3 (eq3 (but_last <$> image) label1)
                                    (eq3 (from_1 <$> image) label2) in
    let y_contact_2 := logical_and3 (eq3 (but_last <$> image) label2)
                                    (eq3 (from_1 <$> image) label1) in
    let z_contact_1 := logical_and3 (eq3 (but_last image) label1)
                                    (eq3 (from_1 image) label2) in
    let z_contact_2 := logical_and3 (eq3 (but_last image) label2)
                                    (eq3 (from_1 image) label1) in
    Ok (Z.of_nat (count_nonzero3 x_contact_1) + Z.of_nat (count_nonzero3 x_contact_2)
        + Z.of_nat (count_nonzero3 y_contact_1) + Z.of_nat (count_nonzero3 y_contact_2)
        + Z.of_nat (count_nonzero3 z_contact_1) + Z.of_nat (count_nonzero3 z_contact_2)).

Definition contact_area_layer (image : Image2) (label1 label2 : Z) : result Z :=
  '(counts, bin_centers) ← histogram (ravel2 image);
  if bool_decide (label1 ∉ bin_centers ∨ label2 ∉ bin_centers) then Raise ValueError
  else
    let x_contact_1 := logical_and2 (eq2 (but_last <$> image) label1)
                                    (eq2 (from_1 <$> image) label2) in
    let x_contact_2 := logical_and2 (eq2 (but_last <$> image) label2)
                                    (eq2 (from_1 <$> image) label1) in
    let y_contact_1 := logical_and2 (eq2 (but_last image) label1)
                                    (eq2 (from_1 image) label2) in
    let y_contact_2 := logical_and2 (eq2 (but_last image) label2)
                                    (eq2 (from_1 image) label1) in
    Ok (Z.of_nat (count_nonzero2 x_contact_1) + Z.of_nat (count_nonzero2 x_contact_2)
        + Z.of_nat (count_nonzero2 y_contact_1) + Z.of_nat (count_nonzero2 y_contact_2)).

(** ** Reference counts, by index

    [voxel V (z, y, x)] reads one voxel, [None] out of bounds.  The
    forward neighbours of a [nz × ny × nx] volume are the pairs made of a
    position and the position one step further along X, Y or Z, both of
    them inside the volume. *)

Abbreviation position := (nat * nat * nat)%type.

Definition voxel {A} (V : list (list (list A))) (p : position) : option A :=
  let '(z, y, x) := p in s ← V !! z; r ← s !! y; r !! x.

Definition forward_neighbours (nz ny nx : nat) : list (position * position) :=
  z ← seq 0 nz; y ← seq 0 ny; x ← seq 0 nx;
  (if decide (x + 1 < nx)%nat then [((z, y, x), (z, y, x + 1)%nat)] else []) ++
  (if decide (y + 1 < ny)%nat then [((z, y, x), (z, y + 1, x)%nat)] else []) ++
  (if decide (z + 1 < nz)%nat then [((z, y, x), (z + 1, y, x)%nat)] else []).

(** Number of forward neighbours whose first voxel carries [a] and whose
    second voxel carries [b]. *)
Definition count_pairs (nz ny nx : nat) (V : Image3) (a b : Z) : nat :=
  length (filter (λ pq, voxel V pq.1 = Some a ∧ voxel V pq.2 = Some b)
                 (forward_neighbours nz ny nx)).

(** One pixel of a slice. *)
Abbreviation position2 := (nat * nat)%type.

Definition pixel {A} (s : list (list A)) (p : position2) : option A :=
  let '(y, x) := p in r ← s !! y; r !! x.

(** The 5×5×5 cubes of the example: every voxel is 1 but one full boundary
    face, which is 0.  [face_cube ax far] puts the face across axis [ax]
    (0 = Z, 1 = Y, 2 = X), at index 4 when [far] and at index 0 if not. *)
Definition face_cube (ax : nat) (far : bool) : Image3 :=
  let k := if far then 4%nat else 0%nat in
  (λ z, (λ y, (λ x,
     let c := match ax with 0%nat => z | 1%nat => y | _ => x end in
     if decide (c = k) then 0 else 1) <$> seq 0 5) <$> seq 0 5) <$> seq 0 5.

(** ** Sums used to state and prove the counts *)

(** Sum of [F] over the pairs of neighbouring elements of a list. *)
Fixpoint adjacent {A} (F : A → A → nat) (l : list A) : nat :=
  match l with
  | [] => 0%nat
  | u :: t => match t with [] => 0%nat | v :: _ => (F u v + adjacent F t)%nat end
  end.

(** 1 when the two voxels read carry [a] and [b]. *)
Definition ind (o1 o2 : option Z) (a b : Z) : nat :=
  if decide (o1 = Some a ∧ o2 = Some b) then 1%nat else 0%nat.

Definition both1 (a b : Z) (r1 r2 : Image1) : nat :=
  count_nonzero1 (logical_and1 (eq1 r1 a) (eq1 r2 b)).
Definition both2 (a b : Z) (s1 s2 : Image2) : nat :=
  count_nonzero2 (logical_and2 (eq2 s1 a) (eq2 s2 b)).
Definition both3 (a b : Z) (V1 V2 : Image3) : nat :=
  count_nonzero3 (logical_and3 (eq3 V1 a) (eq3 V2 b)).

Definition sum3 (nz ny nx : nat) (T : nat → nat → nat → nat) : nat :=
  sum_list_with (λ z, sum_list_with (λ y, sum_list_with (T z y) (seq 0 nx))
                                    (seq 0 ny)) (seq 0 nz).

Definition sum2 (ny nx : nat) (T : nat → nat → nat) : nat :=
  sum_list_with (λ y, sum_list_with (T y) (seq 0 nx)) (seq 0 ny).

(** The contribution of one position along each axis. *)
Definition Tx (V : Image3) (a b : Z) (z y x : nat) : nat :=
  ind (voxel V (z, y, x)) (voxel V (z, y, S x)) a b.
Definition Ty (V : Image3) (a b : Z) (z y x : nat) : nat :=
  ind (voxel V (z, y, x)) (voxel V (z, S y, x)) a b.
Definition Tz (V : Image3) (a b : Z) (z y x : nat) : nat :=
  ind (voxel V (z, y, x)) (voxel V (S z, y, x)) a b.

(** [c] lies between two values of the image. *)
Definition in_value_range (vals : list Z) (c : Z) : Prop :=
  ∃ lo hi, lo ∈ vals ∧ hi ∈ vals ∧ lo ≤ c ≤ hi.

(** ** Voxel counting *)

(** [a[i]] for a Python integer [i]: negative indices count from the
    end, anything else out of range raises [IndexError]. *)
Definition np_index {A} (a : list A) (i : Z) : result A :=
  let n := Z.of_nat (length a) in
  let j := if bool_decide (i < 0) then n + i else i in
  if bool_decide (0 ≤ j < n) then
    match a !! Z.to_nat j with
    | Some v => Ok v
    | None => Raise IndexError
    end
  else Raise IndexError.

(** [np.where(a == v)[0]]: the indices at which [a] holds [v]. *)
Definition where_eq (a : list Z) (v : Z) : list Z :=
  (λ iv, Z.of_nat iv.1) <$> filter (λ iv : nat * Z, iv.2 = v) (imap pair a).

Definition count_voxels_per_label (image : Image3) (label : Z) : result Z :=
  '(counts, bin_centers) ← histogram (ravel3 image);
  label_index ← np_index (where_eq bin_centers label) 0;
  np_index counts label_index.

(** ** Array objects

    Arrays are objects: a function that receives an array receives a
    reference to it, and an assignment through the reference is seen by
    every holder of it.  The store maps locations to array values;
    computations thread it and may raise, in which case the store is the
    one reached so far. *)

Abbreviation loc := nat.
Abbreviation heap := (list (list (list (list Z)))).

Record M (A : Type) : Type := mkM { run : heap → result A * heap }.
Arguments mkM {A} _.
Arguments run {A} _ _.

#[global] Instance M_ret : MRet M := λ A a, mkM (λ h, (Ok a, h)).
#[global] Instance M_bind : MBind M := λ A B k m,
  mkM (λ h, match run m h with
            | (Ok a, h') => run (k a) h'
            | (Raise e, h') => (Raise e, h')
            end).

Definition lift {A} (r : result A) : M A := mkM (λ h, (r, h)).
Definition load (l : loc) : M Image3 := mkM (λ h, (Ok (h !!! l), h)).
Definition store (l : loc) (v : Image3) : M unit :=
  mkM (λ h, (Ok (), <[l := v]> h)).
Definition alloc (v : Image3) : M loc := mkM (λ h, (Ok (length h), h ++ [v])).

(** ** Floats

    A float result is kept as the quotient it rounds, or as one of the
    two values a division by zero yields in numpy. *)
Inductive pyfloat : Set :=
| Quot (num den : Z)
| Inf
| NaN.

(** [a / b] on Python integers. *)
Definition py_true_divide (a b : Z) : result pyfloat :=
  if bool_decide (b = 0) then Raise ZeroDivisionError else Ok (Quot a b).

(** [a / b] on numpy [int64] scalars: a zero divisor gives a warning and
    [nan] or [inf], no exception. *)
Definition np_true_divide (a b : Z) : pyfloat :=
  if bool_decide (b = 0) then (if bool_decide (a = 0) then NaN else Inf)
  else Quot a b.

(** ** Label filtering *)

(** A value stored in an [int8] array (numpy 1 wraps a Python integer
    that does not fit; the label codes of a sample are small). *)
Definition int8 (z : Z) : Z := (z + 128) mod 256 - 128.

(** One turn of the loop of [filter_labels]. *)
Definition filter_labels_step (image filtered_img : Image3) (label : Z) :
    Image3 :=
  let selection := map3 (λ v, if bool_decide (v = label) then v else 0) image in
  zip_with3 (λ sel old, if bool_decide (sel = label) then int8 label else old)
            selection filtered_img.

Definition filter_labels (image : loc) (labels : list Z) : M loc :=
  img ← load image;
  alloc (foldl (filter_labels_step img) (map3 (λ _, 0) img) labels).

(** ** Region of interest *)

(** [ref_img > 0] and [np.logical_not] *)
Definition greater_0 (img : Image3) : list (list (list bool)) :=
  map3 (λ v, bool_decide (0 < v)) img.
Definition logical_not (m : list (list bool)) : list (list bool) :=
  map2 negb m.

(** The positions of the zero elements of a boolean slice. *)
Definition zero_positions (input : list (list bool)) : list position2 :=
  yr ← imap pair input;
  xv ← imap pair yr.2;
  if xv.2 : bool then [] else [(yr.1, xv.1)].

(** Square of the Euclidean distance between two pixels. *)
Definition sqdist (p q : position2) : Z :=
  (Z.of_nat p.1 - Z.of_nat q.1) ^ 2 + (Z.of_nat p.2 - Z.of_nat q.2) ^ 2.

(** [a < k] on a slice *)
Definition less_than (a : list (list Z)) (k : Z) : list (list bool) :=
  map2 (λ d, bool_decide (d < k)) a.

(** [~mask] on a stack *)
Definition invert3 (mask : list (list (list bool))) : list (list (list bool)) :=
  map3 negb mask.

(** The Euclidean distance between [p] and [q] is smaller than [m]
    (on the squares; [closer_than_sqrt] has the square root). *)
Definition closer_than (m : Z) (p q : position2) : Prop :=
  0 < m ∧ sqdist p q < m * m.

(** The distance, within slice [z], from [(y, x)] to the nearest nonzero
    voxel of [R] is smaller than [m]: some nonzero voxel of the slice is
    that close. *)
Definition in_roi (R : Image3) (m : Z) (p : position) : Prop :=
  let '(z, y, x) := p in
  ∃ y' x' v, voxel R (z, y', x') = Some v ∧ v ≠ 0
             ∧ closer_than m (y, x) (y', x').

(** [a[mask] = value] with a boolean mask: the shapes have to agree,
    axis by axis. *)
Definition lengths3 {A} (a : list (list (list A))) : list (list nat) :=
  map2 length a.
Definition same_shape3 {A B} (m : list (list (list A)))
    (t : list (list (list B))) : bool :=
  bool_decide (lengths3 m = lengths3 t).

Definition assign_where (mask : list (list (list bool))) (a : Image3)
    (value : Z) : result Image3 :=
  if same_shape3 mask a then
    Ok (zip_with3 (λ (m : bool) v, if m then value else v) mask a)
  else Raise IndexError.

(** [dst[:][:] = src] for a [dst] of shape [(H, W)]: [src] is broadcast,
    an axis of length 1 being repeated. *)
Definition broadcast_axis {A} (n : nat) (l : list A) : result (list A) :=
  if bool_decide (length l = n) then Ok l
  else match l with
       | [x] => Ok (replicate n x)
       | _ => Raise ValueError
       end.

Fixpoint mapR {A B} (f : A → result B) (l : list A) : result (list B) :=
  match l with
  | [] => Ok []
  | x :: l => y ← f x; ys ← mapR f l; Ok (y :: ys)
  end.

Definition broadcast_to {A} (H W : nat) (src : list (list A)) :
    result (list (list A)) :=
  rows ← broadcast_axis H src; mapR (broadcast_axis W) rows.

Section roi.
(** The floats of the notebook and what it does with them:
    [round(roi_size / pixel_size)], a Python integer when it does not
    raise, and the conversion of an integer literal. *)
Context {Float : Type}.
Variable round_div : Float → Float → result Z.
Variable of_int : Z → Float.

(** Two results the libraries leave open: the distances
    [scipy.ndimage.distance_transform_edt] gives on an input without
    any zero element (here: their squares, by shape and position), and
    the outcome of storing a float beyond 65535 in a [uint16] array. *)
Variable edt_no_zero : nat → nat → nat → nat → Z.
Variable uint16_out_of_range : Z → Z.

(** [scipy.ndimage.distance_transform_edt], as squares: the distance of
    a nonzero element to the nearest zero element, 0 on the zero
    elements. *)
Definition distance_transform_edt (input : list (list bool)) : list (list Z) :=
  let zeros := zero_positions input in
  imap (λ y row,
    imap (λ x (v : bool),
      if v then
        match zeros with
        | [] => edt_no_zero (length input) (length row) y x
        | q :: qs => foldr Z.min (sqdist (y, x) q) (sqdist (y, x) <$> qs)
        end
      else 0) row) input.

(** A distance (given by its square) stored in a [uint16] array: the
    fraction is dropped. *)
Definition to_uint16 (d2 : Z) : Z :=
  let d := Z.sqrt d2 in
  if bool_decide (d < 65536) then d else uint16_out_of_range d.

(** The mask of one slice: which pixels fall below the threshold. *)
Definition mask_slice (item : list (list bool)) (m : Z) : list (list bool) :=
  less_than (map2 to_uint16 (distance_transform_edt (logical_not item))) m.

Definition roi_mask_of (ref : Image3) (mask_size : Z) (img_size : nat * nat) :
    result (list (list (list bool))) :=
  mapR (λ item : list (list bool),
          broadcast_to img_size.1 img_size.2
            (map2 to_uint16 (distance_transform_edt (logical_not item)))
          ≫= λ distance_map : list (list Z),
               Ok (less_than distance_map mask_size))
       (greater_0 ref).

Definition create_roi_mask (ref_img target_img : loc)
    (roi_size pixel_size : Float) (mask_pixel_value : Z)
    (img_size : nat * nat) : M loc :=
  ref ← load ref_img;
  mask_size ← lift (round_div roi_size pixel_size);
  roi_mask ← lift (roi_mask_of ref mask_size img_size);
  target ← load target_img;
  masked ← lift (assign_where (invert3 roi_mask) target mask_pixel_value);
  store target_img masked;;
  mret target_img.

(** ** The sample *)

Record Sample : Type := {
  name : string;
  num_days : Z;
  ref_path : string;
  target_path : string;
  pixel_size : Float;
  smooth_target : bool;
  labels_to_smooth : list Z;
  ref_image : loc;
  target_image : loc;
  label_dict : gmap string Z;
  img_size : nat * nat
}.

(** [d[key]] *)
Definition getitem (d : gmap string Z) (key : string) : M Z :=
  lift (match d !! key with Some v => Ok v | None => Raise KeyError end).

Definition get_BIC_images (self : Sample) (use_roi : bool) : M (loc * loc) :=
  l_screw ← getitem (label_dict self) "screw";
  l_layer ← getitem (label_dict self) "degradation_layer";
  screw ← filter_labels (target_image self) [l_screw; l_layer];
  screw_v ← load screw;
  store screw (map3 (λ v, if bool_decide (v = l_layer) then int8 l_screw else v)
                    screw_v);;
  l_bone ← getitem (label_dict self) "bone";
  bone ← filter_labels (target_image self) [l_bone];
  bone_v ← load bone;
  screw_v ← load screw;
  screw_bone ← alloc (zip_with3 (λ x y, int8 (x + y)) bone_v screw_v);
  if use_roi then
    l_background ← getitem (label_dict self) "background";
    screw ← create_roi_mask (ref_image self) screw (of_int 1000)
              (pixel_size self) l_background (img_size self);
    screw_bone ← create_roi_mask (ref_image self) screw_bone (of_int 1000)
                   (pixel_size self) l_background (img_size self);
    mret (screw, screw_bone)
  else mret (screw, screw_bone).

Definition get_bone_to_implant_contact (self : Sample) : M pyfloat :=
  '(screw, screw_bone) ← get_BIC_images self true;
  screw_bone_v ← load screw_bone;
  l_screw ← getitem (label_dict self) "screw";
  l_bone ← getitem (label_dict self) "bone";
  contact_implant_bone ← lift (contact_area screw_bone_v l_screw l_bone);
  screw_v ← load screw;
  l_background ← getitem (label_dict self) "background";
  contact_background_implant ← lift (contact_area screw_v l_screw l_background);
  lift (py_true_divide contact_implant_bone contact_background_implant).

Definition get_bone_volume_to_total_volume (self : Sample) (roi_size : Float) :
    M pyfloat :=
  l_screw ← getitem (label_dict self) "screw";
  masked_stack ← create_roi_mask (ref_image self) (target_image self) roi_size
                   (pixel_size self) l_screw (img_size self);
  masked ← load masked_stack;
  '(counts, _) ← lift (histogram (ravel3 masked));
  l_bone ← getitem (label_dict self) "bone";
  v_bone ← lift (np_index counts l_bone);
  l_background ← getitem (label_dict self) "background";
  v_background ← lift (np_index counts l_background);
  let v_roi := v_bone + v_background in
  mret (np_true_divide v_bone v_roi).
End roi.

Arguments Sample : clear implicits.

(** ** Instances for the examples

    Floats that hold integers: [round(roi_size / pixel_size)] is then the
    quotient rounded half to even, and a zero divisor raises.  The two
    open results are fixed to 0; the examples do not reach them. *)
Definition round_half_even (n d : Z) : Z :=
  let q := n / d in
  let r := 2 * (n mod d) in
  if bool_decide (Z.abs r < Z.abs d) then q
  else if bool_decide (Z.abs r = Z.abs d) then (if Z.even q then q else q + 1)
  else q + 1.

Definition round_div_int (roi_size pixel_size : Z) : result Z :=
  if bool_decide (pixel_size = 0) then Raise ZeroDivisionError
  else Ok (round_half_even roi_size pixel_size).

Definition no_zero_0 (h w y x : nat) : Z := 0.
Definition out_of_range_0 (d : Z) : Z := 0.

Abbreviation create_roi_mask_int :=
  (create_roi_mask round_div_int no_zero_0 out_of_range_0).
Abbreviation get_bone_volume_to_total_volume_int :=
  (get_bone_volume_to_total_volume round_div_int no_zero_0 out_of_range_0).
Abbreviation get_bone_to_implant_contact_int :=
  (get_bone_to_implant_contact round_div_int (λ z, z) no_zero_0 out_of_range_0).

(** ** The samples of the examples *)

Definition make_labels (background screw screw_ref degradation_layer bone : Z) :
    gmap string Z :=
  <["background" := background]> (<["screw" := screw]>
    (<["screw_ref" := screw_ref]>
      (<["degradation_layer" := degradation_layer]> (<["bone" := bone]> ∅)))).

Definition make_sample (labels : gmap string Z) (px : Z) (width : nat) : Sample Z :=
  {| name := "s"; num_days := 28; ref_path := "ref/*.tif";
     target_path := "target/*.tif"; pixel_size := px; smooth_target := false;
     labels_to_smooth := [1; 2]; ref_image := 0%nat; target_image := 1%nat;
     label_dict := labels; img_size := (1%nat, width) |}.

Definition sample_a := make_sample (make_labels 0 1 2 4 3) 1 3.
Definition heap_a : heap := [ [[[2; 0; 0]]]; [[[0; 3; 3]]] ].
Definition sample_b := make_sample (make_labels 0 1 2 4 3) 1 4.
Definition heap_b : heap := [ [[[2; 2; 2; 2]]]; [[[1; 3; 3; 4]]] ].
Definition sample_c := make_sample (make_labels 2 0 1 5 3) 1 3.
Definition heap_c : heap := [ [[[1; 0; 0]]]; [[[0; 5; 5]]] ].
Definition sample_d := make_sample (make_labels 2 1 5 4 3) 500 3.
Definition heap_d : heap := [ [[[5; 0; 0]]]; [[[1; 3; 0]]] ].

(** ** Further reference definitions

    The forward neighbours of a slice, along X and Y. *)

Definition forward_neighbours2 (ny nx : nat) : list (position2 * position2) :=
  y ← seq 0 ny; x ← seq 0 nx;
  (if decide (x + 1 < nx)%nat then [((y, x), (y, x + 1)%nat)] else []) ++
  (if decide (y + 1 < ny)%nat then [((y, x), (y + 1, x)%nat)] else []).

Definition count_pairs2 (ny nx : nat) (s : Image2) (a b : Z) : nat :=
  length (filter (λ pq, pixel s pq.1 = Some a ∧ pixel s pq.2 = Some b)
                 (forward_neighbours2 ny nx)).

Definition Tx2 (s : Image2) (a b : Z) (y x : nat) : nat :=
  ind (pixel s (y, x)) (pixel s (y, S x)) a b.
Definition Ty2 (s : Image2) (a b : Z) (y x : nat) : nat :=
  ind (pixel s (y, x)) (pixel s (S y, x)) a b.

(** What [filter_labels] leaves in one voxel: the labels are taken in
    turn; a label replaces the value kept so far when the voxel of the
    image carries it, and also when the label is 0. *)
Definition filtered_value (v : Z) (labels : list Z) (start : Z) : Z :=
  foldl (λ acc l, if decide (v = l ∨ l = 0) then int8 l else acc) start labels.

(** A computation that leaves the arrays of the store [h0] alone: run on
    a store that begins with [h0], it ends on a store that begins with
    [h0], and what it returns satisfies [Q]. *)
Definition preserves {A} (h0 : heap) (m : M A) (Q : A → Prop) : Prop :=
  ∀ h, h0 `prefix_of` h →
       h0 `prefix_of` (run m h).2 ∧ ∀ a, (run m h).1 = Ok a → Q a.

(** ** Smoothing

    [for x in l: body(x)] *)
Fixpoint for_each {A} (l : list A) (body : A → M unit) : M unit :=
  match l with
  | [] => mret ()
  | x :: l => body x;; for_each l body
  end.

Section smoothing.
(** [skimage.filters.median] with its default footprint. *)
Variable median_filter : Image3 → Image3.

Definition smooth_labels (image : loc) (labels : list Z) : M loc :=
  filtered_labels ← filter_labels image labels;
  filtered ← load filtered_labels;
  median ← alloc (median_filter filtered);
  for_each labels (λ label,
    med ← load median;
    img ← load image;
    smoothed ← lift (assign_where (map3 (λ v, bool_decide (v = label)) med)
                                  img label);
    store image smoothed);;
  mret image.
End smoothing.

(** ** The layers (cell 7)

    [stack_2d_images] takes the shape of the stack from the first image
    and writes [np.where(image == label2, 2, 0)] into slice after slice;
    [label1] is not used.  (An image without rows has width 0 here.) *)
Definition stack_2d_images (image_list : list Image2) (label1 label2 : Z) :
    result Image3 :=
  match image_list with
  | [] => Raise ValueError
  | first :: _ =>
      let shape_2d := (length first, default 0%nat (length <$> head first)) in
      mapR (λ image,
              broadcast_to shape_2d.1 shape_2d.2
                (map2 (λ v, if bool_decide (v = label2) then 2 else 0) image))
           image_list
  end.

Section layers.
(** The counts of the layers are scaled by the floats [to_mm] and
    [to_mm_area]. *)
Context {Float : Type}.
Variable times_to_mm : Z → Float.
Variable times_to_mm_area : Z → Float.

(** The histogram of a slice is that of its values: a slice is counted
    as a stack of one slice. *)
Definition layer_volumes (image_list : Image3) : result (list Float) :=
  mapR (λ slice,
          number_of_voxels ← count_voxels_per_label [slice] 2;
          Ok (times_to_mm number_of_voxels))
       image_list.

Definition layer_areas (image_list : Image3) : result (list Float) :=
  mapR (λ slice,
          contact_voxels ← contact_area_layer slice 3 2;
          Ok (times_to_mm_area contact_voxels))
       image_list.
End layers.

(** [sum(l)] *)
Definition sum_Z (l : list Z) : Z := foldr Z.add 0 l.

(** * Proofs *)

(** ** The forward neighbours

    They are the pairs of a position of the volume and the position one
    step further along one axis, when that one is in the volume too; no
    pair is listed twice. *)

Section forward.
Local Open Scope nat_scope.

Lemma elem_of_forward_neighbours nz ny nx (p q : position) :
  (p, q) ∈ forward_neighbours nz ny nx ↔
  ∃ z y x, p = (z, y, x) ∧ z < nz ∧ y < ny ∧ x < nx
    ∧ ((q = (z, y, x + 1) ∧ x + 1 < nx)
       ∨ (q = (z, y + 1, x) ∧ y + 1 < ny)
       ∨ (q = (z + 1, y, x) ∧ z + 1 < nz)).
Proof.
  unfold forward_neighbours. rewrite list_elem_of_bind. split.
  - intros (z & (y & (x & Hin & Hx%elem_of_seq)%list_elem_of_bind
                 & Hy%elem_of_seq)%list_elem_of_bind & Hz%elem_of_seq).
    exists z, y, x. rewrite !elem_of_app in Hin.
    destruct Hin as [Hin|[Hin|Hin]]; case_decide;
      try (by apply elem_of_nil in Hin);
      apply list_elem_of_singleton in Hin as [= -> ->];
      (split; [done|]); repeat (split; [lia|]);
      first [ left; split; [done|lia]
            | right; left; split; [done|lia]
            | right; right; split; [done|lia] ].
  - intros (z & y & x & -> & Hz & Hy & Hx & Hq). exists z.
    split; [|apply elem_of_seq; lia]. apply list_elem_of_bind. exists y.
    split; [|apply elem_of_seq; lia]. apply list_elem_of_bind. exists x.
    split; [|apply elem_of_seq; lia]. rewrite !elem_of_app.
    destruct Hq as [[-> ?]|[[-> ?]|[-> ?]]]; [left|right; left|right; right];
      rewrite decide_True by done; by left.
Qed.

Lemma elem_of_steps_fst nz ny nx (z y x : nat) (pq : position * position) :
  pq ∈ (if decide (x + 1 < nx)%nat then [((z, y, x), (z, y, x + 1)%nat)] else []) ++
       (if decide (y + 1 < ny)%nat then [((z, y, x), (z, y + 1, x)%nat)] else []) ++
       (if decide (z + 1 < nz)%nat then [((z, y, x), (z + 1, y, x)%nat)] else []) →
  pq.1 = (z, y, x).
Proof.
  rewrite !elem_of_app.
  destruct (decide (x + 1 < nx)), (decide (y + 1 < ny)), (decide (z + 1 < nz));
    rewrite ?list_elem_of_singleton, ?elem_of_nil; intros H;
    repeat destruct H as [H|H]; by subst.
Qed.

Lemma NoDup_forward_neighbours nz ny nx : NoDup (forward_neighbours nz ny nx).
Proof.
  unfold forward_neighbours.
  apply NoDup_bind; [| |apply NoDup_seq].
  - intros z1 z2 pq _ _ H1 H2.
    apply list_elem_of_bind in H1 as (y1 & (x1 & H1 & _)%list_elem_of_bind & _).
    apply list_elem_of_bind in H2 as (y2 & (x2 & H2 & _)%list_elem_of_bind & _).
    apply elem_of_steps_fst in H1, H2. congruence.
  - intros z _. apply NoDup_bind; [| |apply NoDup_seq].
    + intros y1 y2 pq _ _ H1 H2.
      apply list_elem_of_bind in H1 as (x1 & H1 & _).
      apply list_elem_of_bind in H2 as (x2 & H2 & _).
      apply elem_of_steps_fst in H1, H2. congruence.
    + intros y _. apply NoDup_bind; [| |apply NoDup_seq].
      * intros x1 x2 pq _ _ H1 H2.
        apply elem_of_steps_fst in H1, H2. congruence.
      * intros x _.
        destruct (decide (x + 1 < nx)), (decide (y + 1 < ny)),
          (decide (z + 1 < nz)); simpl; repeat constructor;
          rewrite ?elem_of_cons, ?elem_of_nil; intros H;
          repeat destruct H as [H|H]; try done; injection H; lia.
Qed.
End forward.

(** * Sums over lists and over indices *)

Section sums.
Local Open Scope nat_scope.
Context {A B : Type}.
Implicit Types (l : list A) (f g : A → nat).

Lemma sum_list_with_ext_in f g l :
  (∀ x, x ∈ l → f x = g x) → sum_list_with f l = sum_list_with g l.
Proof.
  induction l as [|x l IH]; intros H; simpl; [done|].
  rewrite (H x) by left. rewrite IH; [done|]. intros y Hy. apply H. by right.
Qed.

Lemma sum_list_with_add f g l :
  sum_list_with (λ x, f x + g x) l = sum_list_with f l + sum_list_with g l.
Proof. induction l as [|x l IH]; simpl; lia. Qed.

Lemma sum_list_with_zero l : sum_list_with (λ _ : A, 0) l = 0.
Proof. induction l; simpl; lia. Qed.

Lemma length_filter_bind (P : B → Prop) `{!∀ x, Decision (P x)}
    (k : A → list B) l :
  length (filter P (l ≫= k)) = sum_list_with (λ x, length (filter P (k x))) l.
Proof.
  induction l as [|x l IH]; [done|].
  rewrite bind_cons, filter_app, length_app, IH. done.
Qed.

Lemma but_last_cons u v l : but_last (u :: v :: l) = u :: but_last (v :: l).
Proof. unfold but_last. simpl. by rewrite Nat.sub_0_r. Qed.

Lemma sum_zip_slices (F : A → A → nat) l :
  sum_list (zip_with F (but_last l) (from_1 l)) = adjacent F l.
Proof.
  induction l as [|u [|v t] IH]; [done..|].
  rewrite but_last_cons. change (from_1 (u :: v :: t)) with (v :: t).
  change (from_1 (v :: t)) with t in IH.
  change (adjacent F (u :: v :: t)) with (F u v + adjacent F (v :: t)).
  cbn [zip_with sum_list sum_list_with]. by rewrite <- IH.
Qed.

Lemma sum_seq_S (h : nat → nat) a n :
  sum_list_with h (seq (S a) n) = sum_list_with (λ i, h (S i)) (seq a n).
Proof.
  rewrite <- fmap_S_seq. generalize (seq a n). intros k.
  induction k as [|i k IH]; csimpl; [done|]. by rewrite IH.
Qed.

Lemma sum_seq_0_S (h : nat → nat) n :
  sum_list_with h (seq 0 (S n)) = h 0 + sum_list_with (λ i, h (S i)) (seq 0 n).
Proof. cbn [seq sum_list_with]. by rewrite sum_seq_S. Qed.

Lemma adjacent_index (F : A → A → nat) l :
  adjacent F l =
  sum_list_with (λ i, match l !! i, l !! S i with
                      | Some u, Some v => F u v
                      | _, _ => 0
                      end) (seq 0 (length l)).
Proof.
  induction l as [|u [|v t] IH]; [done..|].
  change (adjacent F (u :: v :: t)) with (F u v + adjacent F (v :: t)).
  rewrite IH. change (length (u :: v :: t)) with (S (length (v :: t))).
  by rewrite (sum_seq_0_S _ (length (v :: t))).
Qed.

Lemma sum_index g l :
  sum_list_with g l =
  sum_list_with (λ i, from_option g 0 (l !! i)) (seq 0 (length l)).
Proof.
  induction l as [|u t IH]; [done|].
  cbn [length]. rewrite sum_seq_0_S. cbn [sum_list_with]. by rewrite IH.
Qed.
End sums.

Section zips.
Local Open Scope nat_scope.
Context {A B C D : Type}.

Lemma sum_zip_index (F : A → B → nat) (l1 : list A) (l2 : list B) n :
  length l1 = n → length l2 = n →
  sum_list (zip_with F l1 l2) =
  sum_list_with (λ i, match l1 !! i, l2 !! i with
                      | Some u, Some v => F u v
                      | _, _ => 0
                      end) (seq 0 n).
Proof.
  revert l2 n. induction l1 as [|u l1 IH]; intros [|v l2] [|n] ??;
    simplify_eq/=; [done|].
  rewrite sum_seq_S. f_equal. by apply IH.
Qed.

Lemma sum_zip_fmap (g : C → nat) (h : D → D → C) (f1 : A → D) (f2 : B → D)
    (l1 : list A) (l2 : list B) :
  sum_list_with g (zip_with h (f1 <$> l1) (f2 <$> l2)) =
  sum_list (zip_with (λ u v, g (h (f1 u) (f2 v))) l1 l2).
Proof.
  revert l2. induction l1 as [|u l1 IH]; intros [|v l2]; csimpl; [done..|].
  by rewrite IH.
Qed.

Lemma sum_zip_diag (F : B → B → nat) (f1 f2 : A → B) (l : list A) :
  sum_list (zip_with F (f1 <$> l) (f2 <$> l)) =
  sum_list_with (λ u, F (f1 u) (f2 u)) l.
Proof. induction l as [|u l IH]; csimpl; [done|]. by rewrite IH. Qed.
End zips.

(** * Contact counting against the reference counts *)

Section contact.
Local Open Scope nat_scope.
Implicit Types (V : Image3) (s : Image2) (r : Image1) (a b : Z).

Lemma sum1_ext n (T T' : nat → nat) :
  (∀ x, x < n → T x = T' x) →
  sum_list_with T (seq 0 n) = sum_list_with T' (seq 0 n).
Proof.
  intros H. apply sum_list_with_ext_in. intros x Hx%elem_of_seq.
  apply H. lia.
Qed.

Lemma sum2_ext ny nx (T T' : nat → nat → nat) :
  (∀ y x, y < ny → x < nx → T y x = T' y x) → sum2 ny nx T = sum2 ny nx T'.
Proof.
  intros H. unfold sum2. apply sum1_ext. intros y Hy.
  apply sum1_ext. intros x Hx. by apply H.
Qed.

Lemma sum3_ext nz ny nx (T T' : nat → nat → nat → nat) :
  (∀ z y x, z < nz → y < ny → x < nx → T z y x = T' z y x) →
  sum3 nz ny nx T = sum3 nz ny nx T'.
Proof.
  intros H. unfold sum3. apply sum1_ext. intros z Hz.
  apply (sum2_ext ny nx (T z) (T' z)). intros y x ??. by apply H.
Qed.

Lemma sum2_add ny nx (T T' : nat → nat → nat) :
  sum2 ny nx (λ y x, T y x + T' y x) = sum2 ny nx T + sum2 ny nx T'.
Proof.
  unfold sum2. rewrite <- sum_list_with_add. apply sum_list_with_ext_in.
  intros y _. apply sum_list_with_add.
Qed.

Lemma sum3_add nz ny nx (T T' : nat → nat → nat → nat) :
  sum3 nz ny nx (λ z y x, T z y x + T' z y x) =
  sum3 nz ny nx T + sum3 nz ny nx T'.
Proof.
  unfold sum3. rewrite <- sum_list_with_add. apply sum_list_with_ext_in.
  intros z _. apply (sum2_add ny nx (T z) (T' z)).
Qed.

Lemma sum2_zero ny nx : sum2 ny nx (λ _ _, 0) = 0.
Proof.
  unfold sum2. etrans; [|apply (sum_list_with_zero (seq 0 ny))].
  apply sum_list_with_ext_in. intros y _. apply sum_list_with_zero.
Qed.

Lemma ind_None_l o a b : ind None o a b = 0.
Proof. unfold ind. case_decide as H; [by destruct H|done]. Qed.

Lemma ind_None_r o a b : ind o None a b = 0.
Proof. unfold ind. case_decide as H; [by destruct H|done]. Qed.

Lemma ind_Some u v a b :
  ind (Some u) (Some v) a b = Nat.b2n (bool_decide (u = a) && bool_decide (v = b)).
Proof.
  unfold ind. case_decide as H.
  - destruct H as [[= ->] [= ->]]. by rewrite !bool_decide_eq_true_2.
  - destruct (decide (u = a)) as [->|]; [|by rewrite bool_decide_eq_false_2].
    destruct (decide (v = b)) as [->|]; [naive_solver|].
    rewrite (bool_decide_eq_false_2 (v = b)) by done. by rewrite andb_false_r.
Qed.

(** Rows, slices and stacks compared elementwise. *)

Lemma both1_zip a b r1 r2 :
  both1 a b r1 r2 = sum_list (zip_with (λ u v, ind (Some u) (Some v) a b) r1 r2).
Proof.
  unfold both1, count_nonzero1, logical_and1, eq1. rewrite sum_zip_fmap.
  f_equal. apply zip_with_ext; [|done..]. intros. by rewrite ind_Some.
Qed.

Lemma both2_zip a b s1 s2 :
  both2 a b s1 s2 = sum_list (zip_with (both1 a b) s1 s2).
Proof. unfold both2, count_nonzero2, logical_and2, eq2. by rewrite sum_zip_fmap. Qed.

Lemma both3_zip a b V1 V2 :
  both3 a b V1 V2 = sum_list (zip_with (both2 a b) V1 V2).
Proof. unfold both3, count_nonzero3, logical_and3, eq3. by rewrite sum_zip_fmap. Qed.

Lemma both1_index a b r1 r2 nx :
  length r1 = nx → length r2 = nx →
  both1 a b r1 r2 = sum_list_with (λ x, ind (r1 !! x) (r2 !! x) a b) (seq 0 nx).
Proof.
  intros H1 H2. rewrite both1_zip, (sum_zip_index _ _ _ nx) by done.
  apply sum_list_with_ext_in. intros x _.
  destruct (r1 !! x), (r2 !! x); by rewrite ?ind_None_l, ?ind_None_r.
Qed.

Lemma both2_index a b s1 s2 ny nx :
  shape2 ny nx s1 → shape2 ny nx s2 →
  both2 a b s1 s2 =
  sum2 ny nx (λ y x, ind (pixel s1 (y, x)) (pixel s2 (y, x)) a b).
Proof.
  intros [L1 F1] [L2 F2]. rewrite both2_zip, (sum_zip_index _ _ _ ny) by done.
  unfold sum2. apply sum1_ext. intros y Hy.
  destruct (lookup_lt_is_Some_2 s1 y) as [r1 E1]; [lia|].
  destruct (lookup_lt_is_Some_2 s2 y) as [r2 E2]; [lia|].
  rewrite E1, E2.
  rewrite (both1_index a b r1 r2 nx).
  - apply sum_list_with_ext_in. intros x _. simpl. by rewrite E1, E2.
  - by apply (Forall_lookup_1 _ _ _ _ F1 E1).
  - by apply (Forall_lookup_1 _ _ _ _ F2 E2).
Qed.

(** The three axes, each as a sum over the positions of the volume. *)

Lemma shape3_lookup nz ny nx V z :
  shape3 nz ny nx V → z < nz → ∃ s, V !! z = Some s ∧ shape2 ny nx s.
Proof.
  intros [L F] Hz. destruct (lookup_lt_is_Some_2 V z) as [s E]; [lia|].
  exists s. split; [done|]. by apply (Forall_lookup_1 _ _ _ _ F E).
Qed.

Lemma shape2_lookup {A} ny nx (sl : list (list A)) y :
  shape2 ny nx sl → y < ny → ∃ row, sl !! y = Some row ∧ length row = nx.
Proof.
  intros [L F] Hy. destruct (lookup_lt_is_Some_2 sl y) as [row E]; [lia|].
  exists row. split; [done|]. by apply (Forall_lookup_1 _ _ _ _ F E).
Qed.

Lemma x_part V a b nz ny nx :
  shape3 nz ny nx V →
  both3 a b (fmap (M:=list) but_last <$> V) (fmap (M:=list) from_1 <$> V) =
  sum3 nz ny nx (Tx V a b).
Proof.
  intros HV. rewrite both3_zip, sum_zip_diag, sum_index.
  rewrite (proj1 HV). unfold sum3. apply sum1_ext. intros z Hz.
  destruct (shape3_lookup _ _ _ _ z HV Hz) as (s & Es & Hs).
  rewrite Es. cbn [from_option].
  rewrite both2_zip, sum_zip_diag, sum_index.
  rewrite (proj1 Hs). apply sum1_ext. intros y Hy.
  destruct (shape2_lookup _ _ _ y Hs Hy) as (r & Er & Hr).
  rewrite Er. cbn [from_option].
  rewrite both1_zip, sum_zip_slices, adjacent_index, Hr.
  apply sum1_ext. intros x Hx. unfold Tx. simpl. rewrite Es. simpl.
  rewrite Er. simpl.
  destruct (r !! x), (r !! S x); by rewrite ?ind_None_l, ?ind_None_r.
Qed.

Lemma y_part V a b nz ny nx :
  shape3 nz ny nx V →
  both3 a b (but_last <$> V) (from_1 <$> V) = sum3 nz ny nx (Ty V a b).
Proof.
  intros HV. rewrite both3_zip, sum_zip_diag, sum_index.
  rewrite (proj1 HV). unfold sum3. apply sum1_ext. intros z Hz.
  destruct (shape3_lookup _ _ _ _ z HV Hz) as (s & Es & Hs).
  rewrite Es. cbn [from_option].
  rewrite both2_zip, sum_zip_slices, adjacent_index.
  rewrite (proj1 Hs). apply sum1_ext. intros y Hy.
  destruct (shape2_lookup _ _ _ y Hs Hy) as (r1 & E1 & H1).
  rewrite E1. unfold Ty. simpl. rewrite Es. simpl. rewrite E1. simpl.
  destruct (s !! S y) as [r2|] eqn:E2; simpl.
  - apply both1_index; [done|].
    by apply (Forall_lookup_1 _ _ _ _ (proj2 Hs) E2).
  - symmetry. etrans; [|apply (sum_list_with_zero (seq 0 nx))].
    apply sum_list_with_ext_in. intros x _. apply ind_None_r.
Qed.

Lemma z_part V a b nz ny nx :
  shape3 nz ny nx V →
  both3 a b (but_last V) (from_1 V) = sum3 nz ny nx (Tz V a b).
Proof.
  intros HV. rewrite both3_zip, sum_zip_slices, adjacent_index.
  rewrite (proj1 HV). unfold sum3. apply sum1_ext. intros z Hz.
  destruct (shape3_lookup _ _ _ _ z HV Hz) as (s1 & E1 & H1).
  rewrite E1. fold (sum2 ny nx (Tz V a b z)).
  destruct (V !! S z) as [s2|] eqn:E2.
  - rewrite (both2_index a b s1 s2 ny nx);
      [|done|by apply (Forall_lookup_1 _ _ _ _ (proj2 HV) E2)].
    apply sum2_ext. intros y x _ _. unfold Tz. simpl. by rewrite E1, E2.
  - symmetry. etrans; [|apply (sum2_zero ny nx)].
    apply sum2_ext. intros y x _ _. unfold Tz. simpl. rewrite E2.
    apply ind_None_r.
Qed.

Lemma voxel_out_x nz ny nx V z y x :
  shape3 nz ny nx V → nx ≤ x → voxel V (z, y, x) = None.
Proof.
  intros [_ F] Hx. simpl. destruct (V !! z) as [s|] eqn:Es; [|done]. simpl.
  destruct (s !! y) as [r|] eqn:Er; [|done]. simpl.
  apply lookup_ge_None_2.
  pose proof (Forall_lookup_1 _ _ _ _ F Es) as [_ Fs].
  pose proof (Forall_lookup_1 _ _ _ _ Fs Er) as Hr. simpl in Hr. lia.
Qed.

Lemma voxel_out_y nz ny nx V z y x :
  shape3 nz ny nx V → ny ≤ y → voxel V (z, y, x) = None.
Proof.
  intros [_ F] Hy. simpl. destruct (V !! z) as [s|] eqn:Es; [|done]. simpl.
  pose proof (Forall_lookup_1 _ _ _ _ F Es) as [Ls _].
  rewrite (lookup_ge_None_2 s y); [done|lia].
Qed.

Lemma voxel_out_z nz ny nx V z y x :
  shape3 nz ny nx V → nz ≤ z → voxel V (z, y, x) = None.
Proof.
  intros [L _] Hz. simpl. rewrite (lookup_ge_None_2 V z); [done|lia].
Qed.

Lemma length_filter_pair V a b (p q : position) :
  length (filter (λ pq : position * position,
                    voxel V pq.1 = Some a ∧ voxel V pq.2 = Some b) [(p, q)]) =
  ind (voxel V p) (voxel V q) a b.
Proof.
  unfold ind. rewrite filter_cons, filter_nil. simpl fst. simpl snd.
  by repeat case_decide.
Qed.

Lemma count_pairs_sum3 nz ny nx V a b :
  shape3 nz ny nx V →
  count_pairs nz ny nx V a b =
  sum3 nz ny nx (λ z y x, Tx V a b z y x + Ty V a b z y x + Tz V a b z y x).
Proof.
  intros HV. unfold count_pairs, forward_neighbours, sum3.
  rewrite length_filter_bind. apply sum1_ext. intros z Hz.
  rewrite length_filter_bind. apply sum1_ext. intros y Hy.
  rewrite length_filter_bind. apply sum1_ext. intros x Hx.
  rewrite !filter_app, !length_app, !Nat.add_1_r, Nat.add_assoc.
  unfold Tx, Ty, Tz. f_equal; [f_equal|].
  - case_decide; [apply length_filter_pair|].
    rewrite (voxel_out_x nz ny nx V z y (S x)), ind_None_r by (done || lia).
    done.
  - case_decide; [apply length_filter_pair|].
    rewrite (voxel_out_y nz ny nx V z (S y) x), ind_None_r by (done || lia).
    done.
  - case_decide; [apply length_filter_pair|].
    rewrite (voxel_out_z nz ny nx V (S z) y x), ind_None_r by (done || lia).
    done.
Qed.

(** The six comparisons of [contact_area] count the forward neighbours
    labelled [(a, b)] and those labelled [(b, a)]. *)
Lemma six_comparisons nz ny nx V a b :
  shape3 nz ny nx V →
  both3 a b (fmap (M:=list) but_last <$> V) (fmap (M:=list) from_1 <$> V)
  + both3 b a (fmap (M:=list) but_last <$> V) (fmap (M:=list) from_1 <$> V)
  + both3 a b (but_last <$> V) (from_1 <$> V)
  + both3 b a (but_last <$> V) (from_1 <$> V)
  + both3 a b (but_last V) (from_1 V)
  + both3 b a (but_last V) (from_1 V)
  = count_pairs nz ny nx V a b + count_pairs nz ny nx V b a.
Proof.
  intros HV.
  rewrite !(count_pairs_sum3 nz ny nx) by done. rewrite !sum3_add.
  rewrite !(x_part _ _ _ nz ny nx), !(y_part _ _ _ nz ny nx),
    !(z_part _ _ _ nz ny nx) by done.
  lia.
Qed.
End contact.

(** ** The histogram and the label check *)

Lemma elem_of_arange lo hi c : c ∈ arange lo hi ↔ lo ≤ c < hi.
Proof.
  unfold arange. rewrite list_elem_of_fmap. split.
  - intros (i & -> & Hi%elem_of_seq). lia.
  - intros H. exists (Z.to_nat (c - lo)). split; [lia|].
    apply elem_of_seq. lia.
Qed.

Lemma foldr_min_le v vs x : x ∈ v :: vs → foldr Z.min v vs ≤ x.
Proof.
  induction vs as [|w vs IH]; simpl.
  - intros ->%list_elem_of_singleton. lia.
  - intros H.
    assert (x = w ∨ x ∈ v :: vs) as [->|H']
      by (rewrite !elem_of_cons in *; tauto); [lia|].
    specialize (IH H'). lia.
Qed.

Lemma foldr_max_ge v vs x : x ∈ v :: vs → x ≤ foldr Z.max v vs.
Proof.
  induction vs as [|w vs IH]; simpl.
  - intros ->%list_elem_of_singleton. lia.
  - intros H.
    assert (x = w ∨ x ∈ v :: vs) as [->|H']
      by (rewrite !elem_of_cons in *; tauto); [lia|].
    specialize (IH H'). lia.
Qed.

Lemma foldr_min_elem v vs : foldr Z.min v vs ∈ v :: vs.
Proof.
  induction vs as [|w vs IH]; simpl; [by left|].
  destruct (Z.min_spec w (foldr Z.min v vs)) as [[_ ->]|[_ ->]].
  - right; by left.
  - rewrite !elem_of_cons in *. tauto.
Qed.

Lemma foldr_max_elem v vs : foldr Z.max v vs ∈ v :: vs.
Proof.
  induction vs as [|w vs IH]; simpl; [by left|].
  destruct (Z.max_spec w (foldr Z.max v vs)) as [[_ ->]|[_ ->]].
  - rewrite !elem_of_cons in *. tauto.
  - right; by left.
Qed.

Lemma histogram_centers vals counts centers c :
  histogram vals = Ok (counts, centers) →
  c ∈ centers ↔ in_value_range vals c.
Proof.
  destruct vals as [|v vs]; [done|]. intros [= <- <-].
  rewrite elem_of_arange. split.
  - intros H. exists (foldr Z.min v vs), (foldr Z.max v vs).
    split; [apply foldr_min_elem|]. split; [apply foldr_max_elem|]. lia.
  - intros (lo & hi & Hlo & Hhi & H).
    apply foldr_min_le in Hlo. apply foldr_max_ge in Hhi. lia.
Qed.

Lemma in_value_range_elem vals c : c ∈ vals → in_value_range vals c.
Proof. intros H. exists c, c. repeat split; (done || lia). Qed.

Lemma histogram_nonempty vals :
  vals ≠ [] → ∃ counts centers, histogram vals = Ok (counts, centers).
Proof. destruct vals; [done|]. intros _. simpl. eauto. Qed.

Lemma contact_area_present nz ny nx (V : Image3) a b :
  shape3 nz ny nx V →
  in_value_range (ravel3 V) a → in_value_range (ravel3 V) b →
  contact_area V a b =
  Ok (Z.of_nat (count_pairs nz ny nx V a b + count_pairs nz ny nx V b a)).
Proof.
  intros HV Ha Hb. unfold contact_area.
  destruct (histogram_nonempty (ravel3 V)) as (counts & centers & E).
  { destruct Ha as (lo & _ & Hlo & _). intros E. rewrite E in Hlo.
    by apply elem_of_nil in Hlo. }
  rewrite E. simpl.
  rewrite bool_decide_eq_false_2.
  2:{ rewrite !(histogram_centers _ _ _ _ E). tauto. }
  f_equal. pose proof (six_comparisons nz ny nx V a b HV) as H.
  unfold both3 in H. lia.
Qed.

(** C1. For a volume of shape [nz × ny × nx] and labels [a], [b] that
    occur in it, [contact_area] returns the number of forward neighbours
    (a position and the next one along X, Y or Z, both inside the volume:
    no wraparound, no padding) labelled [(a, b)] plus the number labelled
    [(b, a)].  On each of the six 5×5×5 cubes that are 1 everywhere but on
    one full boundary face of 0, [contact_area cube 0 1] is 25. *)
Theorem contact_area_counts_forward_pairs :
  (∀ nz ny nx (V : Image3) a b,
     shape3 nz ny nx V → a ∈ ravel3 V → b ∈ ravel3 V →
     contact_area V a b =
     Ok (Z.of_nat (count_pairs nz ny nx V a b + count_pairs nz ny nx V b a)))
  ∧ (∀ ax far, (ax < 3)%nat → contact_area (face_cube ax far) 0 1 = Ok 25).
Proof.
  split.
  - intros nz ny nx V a b HV Ha Hb.
    apply contact_area_present; auto using in_value_range_elem.
  - intros ax far Hax.
    destruct ax as [|[|[|ax]]]; [| | |lia]; destruct far; by vm_compute.
Qed.

Lemma contact_area_counts_forward_pairs_witness :
  contact_area [[[0; 1; 0]; [1; 1; 0]]] 0 1 =
  Ok (Z.of_nat (count_pairs 1 2 3 [[[0; 1; 0]; [1; 1; 0]]] 0 1
                + count_pairs 1 2 3 [[[0; 1; 0]; [1; 1; 0]]] 1 0)).
Proof.
  apply (proj1 contact_area_counts_forward_pairs 1%nat 2%nat 3%nat).
  - split; [reflexivity|]. repeat constructor.
  - vm_compute. apply list_elem_of_here.
  - vm_compute. apply list_elem_of_further, list_elem_of_here.
Defined.

(** C10. For a label [a] that occurs in the volume, [contact_area V a a]
    is twice the number of forward neighbours whose two voxels both carry
    [a]: the two label orders are one comparison, counted twice. *)
Theorem contact_area_same_label_doubles nz ny nx (V : Image3) a :
  shape3 nz ny nx V → a ∈ ravel3 V →
  contact_area V a a = Ok (2 * Z.of_nat (count_pairs nz ny nx V a a)).
Proof.
  intros HV Ha.
  rewrite (contact_area_present nz ny nx) by auto using in_value_range_elem.
  f_equal. lia.
Qed.

Lemma contact_area_same_label_doubles_witness :
  contact_area [[[1; 1; 0]; [1; 1; 0]]] 1 1 =
  Ok (2 * Z.of_nat (count_pairs 1 2 3 [[[1; 1; 0]; [1; 1; 0]]] 1 1)).
Proof.
  apply (contact_area_same_label_doubles 1 2 3).
  - split; [reflexivity|]. repeat constructor.
  - vm_compute. apply list_elem_of_here.
Defined.

(** C6. Swapping the two labels changes neither the result of
    [contact_area] nor that of [contact_area_layer], for every volume,
    slice and pair of labels (present or not, equal or not: the label
    check and the sum are both symmetric). *)
Theorem contact_symmetric :
  (∀ (V : Image3) a b, contact_area V a b = contact_area V b a)
  ∧ (∀ (S : Image2) a b, contact_area_layer S a b = contact_area_layer S b a).
Proof.
  split.
  - intros V a b. unfold contact_area.
    destruct (histogram (ravel3 V)) as [[counts centers]|e]; [|done]. simpl.
    rewrite (bool_decide_ext _ (b ∉ centers ∨ a ∉ centers)) by tauto.
    case_bool_decide; [done|]. f_equal. lia.
  - intros S a b. unfold contact_area_layer.
    destruct (histogram (ravel2 S)) as [[counts centers]|e]; [|done]. simpl.
    rewrite (bool_decide_ext _ (b ∉ centers ∨ a ∉ centers)) by tauto.
    case_bool_decide; [done|]. f_equal. lia.
Qed.

(** ** The label check of the contact counters *)

Lemma contact_area_raises_iff (V : Image3) a b :
  raises (contact_area V a b) ↔
  ¬ (in_value_range (ravel3 V) a ∧ in_value_range (ravel3 V) b).
Proof.
  unfold contact_area, raises.
  destruct (histogram (ravel3 V)) as [[counts centers]|e] eqn:E; simpl.
  - rewrite <- !(histogram_centers _ _ _ _ E). case_bool_decide as H.
    + split; [tauto|eauto].
    + split; [by intros [? ?]|]. intros H'. destruct H.
      destruct (decide (a ∈ centers)); [|tauto].
      destruct (decide (b ∈ centers)); tauto.
  - split; [|eauto]. intros _ [(lo & _ & Hlo & _) _].
    destruct (ravel3 V); [by apply elem_of_nil in Hlo|done].
Qed.

Lemma contact_area_layer_raises_iff (S : Image2) a b :
  raises (contact_area_layer S a b) ↔
  ¬ (in_value_range (ravel2 S) a ∧ in_value_range (ravel2 S) b).
Proof.
  unfold contact_area_layer, raises.
  destruct (histogram (ravel2 S)) as [[counts centers]|e] eqn:E; simpl.
  - rewrite <- !(histogram_centers _ _ _ _ E). case_bool_decide as H.
    + split; [tauto|eauto].
    + split; [by intros [? ?]|]. intros H'. destruct H.
      destruct (decide (a ∈ centers)); [|tauto].
      destruct (decide (b ∈ centers)); tauto.
  - split; [|eauto]. intros _ [(lo & _ & Hlo & _) _].
    destruct (ravel2 S); [by apply elem_of_nil in Hlo|done].
Qed.

(** When both labels occur the counters return a count, and it is not
    negative. *)
Lemma contact_area_present_returns (V : Image3) a b :
  a ∈ ravel3 V → b ∈ ravel3 V → ∃ n, contact_area V a b = Ok n ∧ 0 ≤ n.
Proof.
  intros Ha%in_value_range_elem Hb%in_value_range_elem.
  destruct (contact_area V a b) as [n|e] eqn:E.
  - exists n. split; [done|]. unfold contact_area in E.
    destruct (histogram (ravel3 V)) as [[counts centers]|]; [|done].
    simpl in E. case_bool_decide; [done|]. injection E as <-. lia.
  - destruct (proj1 (contact_area_raises_iff V a b)); [|done].
    rewrite E. by exists e.
Qed.

Lemma contact_area_layer_present_returns (S : Image2) a b :
  a ∈ ravel2 S → b ∈ ravel2 S → ∃ n, contact_area_layer S a b = Ok n ∧ 0 ≤ n.
Proof.
  intros Ha%in_value_range_elem Hb%in_value_range_elem.
  destruct (contact_area_layer S a b) as [n|e] eqn:E.
  - exists n. split; [done|]. unfold contact_area_layer in E.
    destruct (histogram (ravel2 S)) as [[counts centers]|]; [|done].
    simpl in E. case_bool_decide; [done|]. injection E as <-. lia.
  - destruct (proj1 (contact_area_layer_raises_iff S a b)); [|done].
    rewrite E. by exists e.
Qed.

(** C7. The check of [contact_area] and [contact_area_layer] looks the
    labels up among the bins of the histogram, which run from the
    smallest to the largest value of the image, not among the values
    themselves.  A label that is absent but lies between two values of
    the image passes: in the stack [[[0, 2]]] and in the slice [[0, 2]]
    label 1 occurs nowhere, and the counters return 0 for the labels 1
    and 0 instead of raising. *)
Theorem contact_absent_label_passes :
  (1 ∉ ravel3 [[[0; 2]]])
  ∧ contact_area [[[0; 2]]] 1 0 = Ok 0
  ∧ (1 ∉ ravel2 [[0; 2]])
  ∧ contact_area_layer [[0; 2]] 1 0 = Ok 0.
Proof.
  split; [refine (bool_decide_unpack _ _); by vm_compute|].
  split; [by vm_compute|].
  split; [refine (bool_decide_unpack _ _); by vm_compute|].
  by vm_compute.
Qed.

Lemma np_index_nat {A} (a : list A) (i : nat) v :
  a !! i = Some v → np_index a (Z.of_nat i) = Ok v.
Proof.
  intros E. pose proof (lookup_lt_Some _ _ _ E) as Hi. unfold np_index.
  rewrite (bool_decide_eq_false_2 (Z.of_nat i < 0)) by lia.
  rewrite bool_decide_eq_true_2 by lia. by rewrite Nat2Z.id, E.
Qed.

Lemma np_index_ge {A} (a : list A) (i : Z) :
  Z.of_nat (length a) ≤ i → np_index a i = Raise IndexError.
Proof.
  intros Hi. unfold np_index. rewrite (bool_decide_eq_false_2 (i < 0)) by lia.
  by rewrite bool_decide_eq_false_2 by lia.
Qed.

Lemma filter_indexed_arange lo c n (s off : nat) :
  filter (λ iv : nat * Z, iv.2 = c)
         (imap (λ i v, ((off + i)%nat, v))
               ((λ i : nat, lo + Z.of_nat i) <$> seq s n)) =
  if decide (lo + Z.of_nat s ≤ c < lo + Z.of_nat s + Z.of_nat n)
  then [((off + Z.to_nat (c - lo - Z.of_nat s))%nat, c)] else [].
Proof.
  revert s off. induction n as [|n IH]; intros s off.
  { simpl. case_decide; [lia|done]. }
  cbn [seq]. rewrite fmap_cons. cbn [imap]. rewrite filter_cons. simpl snd.
  rewrite (imap_ext _ (λ i v, ((S off + i)%nat, v)))
    by (intros; simpl; f_equal; lia).
  rewrite IH. destruct (decide (lo + Z.of_nat s = c)) as [<-|Hne].
  - rewrite decide_False by lia. rewrite decide_True by lia.
    do 2 f_equal. lia.
  - case_decide as H1; case_decide as H2; try lia; [|done].
    do 2 f_equal. lia.
Qed.

Lemma where_eq_arange lo hi c :
  where_eq (arange lo hi) c = if decide (lo ≤ c < hi) then [c - lo] else [].
Proof.
  unfold where_eq, arange.
  rewrite (imap_ext pair (λ i v, ((0 + i)%nat, v))) by done.
  rewrite filter_indexed_arange.
  case_decide as H1; case_decide as H2; try lia; [|done].
  simpl. f_equal. lia.
Qed.

Lemma lookup_arange lo hi (i : nat) :
  lo + Z.of_nat i < hi → arange lo hi !! i = Some (lo + Z.of_nat i).
Proof.
  intros H. unfold arange. rewrite list_lookup_fmap, lookup_seq_lt by lia.
  done.
Qed.

(** What [count_voxels_per_label] does, case by case. *)
Lemma count_voxels_per_label_cases (image : Image3) label :
  count_voxels_per_label image label =
  match ravel3 image with
  | [] => Raise ValueError
  | v :: vs =>
      if decide (foldr Z.min v vs ≤ label ≤ foldr Z.max v vs)
      then Ok (count_value (v :: vs) label)
      else Raise IndexError
  end.
Proof.
  unfold count_voxels_per_label. destruct (ravel3 image) as [|v vs]; [done|].
  cbn [histogram mbind result_bind]. rewrite where_eq_arange.
  set (lo := foldr Z.min v vs). set (hi := foldr Z.max v vs).
  case_decide as H1; case_decide as H2; try lia; [|done].
  pose proof (np_index_nat [label - lo] 0 (label - lo) eq_refl) as E0.
  change (Z.of_nat 0) with 0 in E0. rewrite E0. cbn [mbind result_bind].
  rewrite <- (Z2Nat.id (label - lo)) by lia. apply np_index_nat.
  rewrite list_lookup_fmap, lookup_arange by lia. simpl. do 2 f_equal. lia.
Qed.

Lemma in_value_range_cons v vs c :
  in_value_range (v :: vs) c ↔ foldr Z.min v vs ≤ c ≤ foldr Z.max v vs.
Proof.
  split.
  - intros (lo & hi & Hlo & Hhi & H).
    apply foldr_min_le in Hlo. apply foldr_max_ge in Hhi. lia.
  - intros H. exists (foldr Z.min v vs), (foldr Z.max v vs).
    split; [apply foldr_min_elem|]. split; [apply foldr_max_elem|]. lia.
Qed.

(** A label between two values of the image is counted exactly, and the
    count of a label that does not occur is 0. *)
Lemma count_voxels_per_label_in_range (image : Image3) label :
  in_value_range (ravel3 image) label →
  count_voxels_per_label image label = Ok (count_value (ravel3 image) label).
Proof.
  intros H. rewrite count_voxels_per_label_cases.
  destruct (ravel3 image) as [|v vs] eqn:E.
  { destruct H as (lo & _ & Hlo & _). by apply elem_of_nil in Hlo. }
  apply in_value_range_cons in H. by rewrite decide_True.
Qed.

Lemma count_value_absent vals c : c ∉ vals → count_value vals c = 0.
Proof.
  unfold count_value. induction vals as [|v vs IH]; [done|].
  rewrite not_elem_of_cons. intros [Hne H]. rewrite filter_cons.
  rewrite decide_False by done. by apply IH.
Qed.

(** A label outside the values of a (non-empty) image: the search of the
    bin comes back empty and indexing it raises. *)
Lemma count_voxels_per_label_out_of_range (image : Image3) label :
  ravel3 image ≠ [] → ¬ in_value_range (ravel3 image) label →
  count_voxels_per_label image label = Raise IndexError.
Proof.
  intros Hne H. rewrite count_voxels_per_label_cases.
  destruct (ravel3 image) as [|v vs]; [done|].
  rewrite in_value_range_cons in H. by rewrite decide_False.
Qed.

(** C4. [count_voxels_per_label] does not return 0 for every absent
    label: in the stack [[[0, 1]]] label 5 occurs nowhere and the call
    raises [IndexError]. *)
Theorem count_voxels_absent_label_raises :
  (5 ∉ ravel3 [[[0; 1]]]) ∧
  count_voxels_per_label [[[0; 1]]] 5 = Raise IndexError.
Proof.
  split; [|by vm_compute]. refine (bool_decide_unpack _ _). by vm_compute.
Qed.

(** * Region of interest: the mask *)

Lemma mapR_ok {A B} (f : A → result B) (g : A → B) (l : list A) :
  (∀ x, x ∈ l → f x = Ok (g x)) → mapR f l = Ok (g <$> l).
Proof.
  induction l as [|x l IH]; intros H; [done|].
  cbn [mapR]. rewrite (H x) by left. cbn [mbind result_bind].
  rewrite IH by (intros y Hy; apply H; by right). done.
Qed.

Lemma broadcast_axis_same {A} n (l : list A) :
  length l = n → broadcast_axis n l = Ok l.
Proof. intros H. unfold broadcast_axis. by rewrite bool_decide_eq_true_2. Qed.

Lemma broadcast_to_same {A} H W (src : list (list A)) :
  shape2 H W src → broadcast_to H W src = Ok src.
Proof.
  intros [L F]. unfold broadcast_to. rewrite broadcast_axis_same by done.
  cbn [mbind result_bind]. rewrite (mapR_ok _ Datatypes.id), list_fmap_id; [done|].
  intros r Hr. apply broadcast_axis_same.
  by apply (proj1 (Forall_forall _ _) F).
Qed.

Lemma foldr_min_lt_iff a (l : list Z) b :
  foldr Z.min a l < b ↔ ∃ c, c ∈ a :: l ∧ c < b.
Proof.
  split.
  - intros H. exists (foldr Z.min a l). split; [apply foldr_min_elem|done].
  - intros (c & Hc & Hlt). apply foldr_min_le in Hc. lia.
Qed.

Lemma sqdist_nonneg p q : 0 ≤ sqdist p q.
Proof. unfold sqdist. nia. Qed.

(** [closer_than] compares the real Euclidean distance with [m]. *)
Lemma closer_than_sqrt m p q :
  closer_than m p q ↔ (sqrt (IZR (sqdist p q)) < IZR m)%R.
Proof.
  pose proof (sqdist_nonneg p q) as Hd. apply IZR_le in Hd.
  unfold closer_than. split.
  - intros [Hm Hlt]. apply IZR_lt in Hm, Hlt. rewrite mult_IZR in Hlt.
    rewrite <- (sqrt_square (IZR m)) by lra. apply sqrt_lt_1_alt. lra.
  - intros H. pose proof (sqrt_pos (IZR (sqdist p q))) as Hs.
    assert (0 < IZR m)%R as Hm by lra. split; [by apply lt_IZR|].
    apply lt_IZR. rewrite mult_IZR. apply sqrt_lt_0_alt.
    rewrite sqrt_square by lra. done.
Qed.

Lemma sqdist_self p : sqdist p p = 0.
Proof. unfold sqdist. lia. Qed.

Lemma sqdist_bound (H W : nat) p q :
  (p.1 < H)%nat → (p.2 < W)%nat → (q.1 < H)%nat → (q.2 < W)%nat →
  sqdist p q ≤ (Z.of_nat H - 1) ^ 2 + (Z.of_nat W - 1) ^ 2.
Proof. unfold sqdist. intros. nia. Qed.

Lemma elem_of_zero_positions (input : list (list bool)) q :
  q ∈ zero_positions input ↔ pixel input q = Some false.
Proof.
  destruct q as [y x]. unfold zero_positions. rewrite list_elem_of_bind.
  split.
  - intros ([y' row] & (x0 & Hx0)%list_elem_of_bind
            & (? & ? & [= -> ->] & Hrow)%elem_of_lookup_imap).
    destruct Hx0 as [Hx0 (? & v & -> & Hv)%elem_of_lookup_imap].
    simpl in *. destruct v; [by apply elem_of_nil in Hx0|].
    apply list_elem_of_singleton in Hx0 as [= -> ->]. by rewrite Hrow.
  - simpl. intros H. destruct (input !! y) as [row|] eqn:Hrow; [|done].
    simpl in H. exists (y, row). split.
    + apply list_elem_of_bind. exists (x, false). split; [by left|].
      apply elem_of_lookup_imap. eauto.
    + apply elem_of_lookup_imap. eauto.
Qed.

Lemma pixel_map2 {A B} (f : A → B) (s : list (list A)) p :
  pixel (map2 f s) p = f <$> pixel s p.
Proof.
  destruct p as [y x]. unfold map2. simpl. rewrite list_lookup_fmap.
  destruct (s !! y); simpl; [|done]. by rewrite list_lookup_fmap.
Qed.

Lemma voxel_pixel {A} (V : list (list (list A))) z y x s :
  V !! z = Some s → voxel V (z, y, x) = pixel s (y, x).
Proof. intros E. simpl. by rewrite E. Qed.

Lemma voxel_map3 {A B} (f : A → B) (V : list (list (list A))) p :
  voxel (map3 f V) p = f <$> voxel V p.
Proof.
  destruct p as [[z y] x]. unfold map3. cbn [voxel]. rewrite list_lookup_fmap.
  destruct (V !! z) as [s|]; [|done]. apply (pixel_map2 f s (y, x)).
Qed.

Lemma shape2_map2 {A B} (f : A → B) H W (s : list (list A)) :
  shape2 H W s → shape2 H W (map2 f s).
Proof.
  intros [L F]. unfold map2. split; [by rewrite length_fmap|].
  apply Forall_fmap. eapply Forall_impl; [done|]. intros r Hr. simpl.
  by rewrite length_fmap.
Qed.

Lemma shape3_map3 {A B} (f : A → B) nz H W (V : list (list (list A))) :
  shape3 nz H W V → shape3 nz H W (map3 f V).
Proof.
  intros [L F]. unfold map3. split; [by rewrite length_fmap|].
  apply Forall_fmap. eapply Forall_impl; [done|]. intros s Hs.
  by apply shape2_map2.
Qed.

Lemma pixel_in_shape {A} H W (s : list (list A)) y x v :
  shape2 H W s → pixel s (y, x) = Some v → (y < H ∧ x < W)%nat.
Proof.
  intros [L F]. simpl. destruct (s !! y) as [r|] eqn:E; [|done]. simpl.
  intros Hx. pose proof (Forall_lookup_1 _ _ _ _ F E) as Hr. simpl in Hr.
  apply lookup_lt_Some in E, Hx. lia.
Qed.

Lemma shape2_zip_with {A B C} (f : A → B → C) H W
    (a : list (list A)) (b : list (list B)) :
  shape2 H W a → shape2 H W b → shape2 H W (zip_with (zip_with f) a b).
Proof.
  intros [La Fa] [Lb Fb]. split.
  - rewrite length_zip_with. lia.
  - apply Forall_lookup. intros i r (ra & rb & -> & Ea & Eb)%lookup_zip_with_Some.
    pose proof (Forall_lookup_1 _ _ _ _ Fa Ea) as Ha.
    pose proof (Forall_lookup_1 _ _ _ _ Fb Eb) as Hb. simpl in *.
    rewrite length_zip_with. lia.
Qed.

Lemma shape3_zip_with3 {A B C} (f : A → B → C) nz H W
    (a : list (list (list A))) (b : list (list (list B))) :
  shape3 nz H W a → shape3 nz H W b → shape3 nz H W (zip_with3 f a b).
Proof.
  intros [La Fa] [Lb Fb]. split.
  - unfold zip_with3. rewrite length_zip_with. lia.
  - apply Forall_lookup. intros i r (ra & rb & -> & Ea & Eb)%lookup_zip_with_Some.
    apply shape2_zip_with.
    + apply (Forall_lookup_1 _ _ _ _ Fa Ea).
    + apply (Forall_lookup_1 _ _ _ _ Fb Eb).
Qed.

Lemma voxel_zip_with3 {A B C} (f : A → B → C)
    (a : list (list (list A))) (b : list (list (list B))) p :
  voxel (zip_with3 f a b) p = (u ← voxel a p; v ← voxel b p; Some (f u v)).
Proof.
  destruct p as [[z y] x]. unfold zip_with3. cbn [voxel].
  rewrite lookup_zip_with.
  destruct (a !! z) as [sa|]; [|done]. cbn [mbind option_bind].
  destruct (b !! z) as [sb|]; cbn [mbind option_bind].
  - rewrite lookup_zip_with.
    destruct (sa !! y) as [ra|]; [|done]. cbn [mbind option_bind].
    destruct (sb !! y) as [rb|]; cbn [mbind option_bind].
    + by rewrite lookup_zip_with.
    + by destruct (ra !! x).
  - destruct (sa !! y) as [ra|]; [|done]. cbn [mbind option_bind].
    by destruct (ra !! x).
Qed.

Lemma lengths3_shape {A} nz H W (a : list (list (list A))) :
  shape3 nz H W a → lengths3 a = replicate nz (replicate H W).
Proof.
  intros [L F]. unfold lengths3, map2. apply list_eq. intros z.
  rewrite list_lookup_fmap.
  destruct (decide (z < nz)%nat) as [Hz|Hz].
  - rewrite lookup_replicate_2 by done.
    destruct (lookup_lt_is_Some_2 a z) as [s E]; [lia|]. rewrite E. simpl.
    f_equal. destruct (Forall_lookup_1 _ _ _ _ F E) as [Ls Fs].
    apply list_eq. intros y. rewrite list_lookup_fmap.
    destruct (decide (y < H)%nat) as [Hy|Hy].
    + rewrite lookup_replicate_2 by done.
      destruct (lookup_lt_is_Some_2 s y) as [r Er]; [lia|]. rewrite Er. simpl.
      f_equal. apply (Forall_lookup_1 _ _ _ _ Fs Er).
    + rewrite (lookup_ge_None_2 s y) by lia. simpl. symmetry.
      apply lookup_replicate_None. lia.
  - rewrite (lookup_ge_None_2 a z) by lia. simpl. symmetry.
    apply lookup_replicate_None. lia.
Qed.

Lemma same_shape3_shape {A B} nz H W (a : list (list (list A)))
    (b : list (list (list B))) :
  shape3 nz H W a → shape3 nz H W b → same_shape3 a b = true.
Proof.
  intros Ha Hb. unfold same_shape3. apply bool_decide_eq_true_2.
  by rewrite (lengths3_shape nz H W a), (lengths3_shape nz H W b).
Qed.

Lemma voxel_in_shape {A} nz H W (V : list (list (list A))) z y x v :
  shape3 nz H W V → voxel V (z, y, x) = Some v → (z < nz ∧ y < H ∧ x < W)%nat.
Proof.
  intros [L F]. cbn [voxel]. destruct (V !! z) as [s|] eqn:E; [|done].
  cbn [mbind option_bind]. intros Hp.
  apply (pixel_in_shape H W s y x v) in Hp; [|apply (Forall_lookup_1 _ _ _ _ F E)].
  apply lookup_lt_Some in E. lia.
Qed.

Lemma voxel_defined {A} nz H W (V : list (list (list A))) z y x :
  shape3 nz H W V → (z < nz)%nat → (y < H)%nat → (x < W)%nat →
  ∃ s v, V !! z = Some s ∧ shape2 H W s ∧ pixel s (y, x) = Some v.
Proof.
  intros [L F] Hz Hy Hx. destruct (lookup_lt_is_Some_2 V z) as [s E]; [lia|].
  destruct (Forall_lookup_1 _ _ _ _ F E) as [Ls Fs].
  destruct (lookup_lt_is_Some_2 s y) as [r Er]; [lia|].
  pose proof (Forall_lookup_1 _ _ _ _ Fs Er) as Hr. simpl in Hr.
  destruct (lookup_lt_is_Some_2 r x) as [v Ev]; [lia|].
  exists s, v. split; [done|]. split; [done|]. simpl. by rewrite Er.
Qed.

Lemma zip_with_idemp {A B} (g : A → B → B) (l : list A) (k : list B) :
  (∀ x y, g x (g x y) = g x y) →
  zip_with g l (zip_with g l k) = zip_with g l k.
Proof.
  intros Hg. revert k. induction l as [|x l IH]; intros [|y k]; simpl; [done..|].
  by rewrite Hg, IH.
Qed.

Lemma lengths_zip_with {A B C} (f : A → B → C)
    (s : list (list A)) (s' : list (list B)) :
  length <$> s = length <$> s' →
  length <$> zip_with (zip_with f) s s' = length <$> s.
Proof.
  revert s'. induction s as [|r s IH]; intros [|r' s'] E; [done..|].
  injection E as E1 E2. csimpl. rewrite IH by done. f_equal.
  rewrite length_zip_with. lia.
Qed.

Lemma lengths3_zip_with3 {A B C} (f : A → B → C)
    (a : list (list (list A))) (b : list (list (list B))) :
  lengths3 a = lengths3 b → lengths3 (zip_with3 f a b) = lengths3 a.
Proof.
  unfold lengths3, map2, zip_with3. revert b.
  induction a as [|s a IH]; intros [|s' b] E; [done..|].
  injection E as E1 E2. csimpl. rewrite IH by done. f_equal.
  by apply lengths_zip_with.
Qed.

Lemma assign_where_idemp mask (T T' : Image3) fill :
  assign_where mask T fill = Ok T' → assign_where mask T' fill = Ok T'.
Proof.
  unfold assign_where, same_shape3. case_bool_decide as E; [|done].
  intros [= <-]. rewrite bool_decide_eq_true_2.
  - f_equal. unfold zip_with3. apply zip_with_idemp. intros s1 s2.
    apply zip_with_idemp. intros r1 r2. apply zip_with_idemp.
    by intros [] ?.
  - symmetry. by apply lengths3_zip_with3.
Qed.

Lemma run_bind {A B} (m : M A) (k : A → M B) h :
  run (m ≫= k) h =
  match run m h with
  | (Ok a, h') => run (k a) h'
  | (Raise e, h') => (Raise e, h')
  end.
Proof. done. Qed.

Section roi_mask.
Context {Float : Type}.
Variable round_div : Float → Float → result Z.
Variable edt_no_zero : nat → nat → nat → nat → Z.
Variable uint16_out_of_range : Z → Z.

Local Abbreviation edt := (distance_transform_edt edt_no_zero).
Local Abbreviation u16 := (to_uint16 uint16_out_of_range).
Local Abbreviation roi_mask_of' := (roi_mask_of edt_no_zero uint16_out_of_range).
Local Abbreviation mask_slice' :=
  (mask_slice edt_no_zero uint16_out_of_range).
Local Abbreviation create_roi_mask' :=
  (create_roi_mask round_div edt_no_zero uint16_out_of_range).

(** One element of the distance transform. *)
Lemma pixel_edt (input : list (list bool)) y x :
  pixel (edt input) (y, x) =
  row ← input !! y; v ← row !! x;
  Some (if v : bool then
          match zero_positions input with
          | [] => edt_no_zero (length input) (length row) y x
          | q :: qs => foldr Z.min (sqdist (y, x) q) (sqdist (y, x) <$> qs)
          end
        else 0).
Proof.
  unfold distance_transform_edt. simpl. rewrite list_lookup_imap.
  destruct (input !! y) as [row|]; [|done]. simpl.
  rewrite list_lookup_imap. by destruct (row !! x).
Qed.

Lemma shape2_edt H W (input : list (list bool)) :
  shape2 H W input → shape2 H W (edt input).
Proof.
  intros [L F]. unfold distance_transform_edt. split.
  - by rewrite length_imap.
  - apply Forall_lookup. intros y r. rewrite list_lookup_imap.
    destruct (input !! y) as [row|] eqn:E; [|done]. intros [= <-].
    rewrite length_imap. by apply (Forall_lookup_1 _ _ _ _ F E).
Qed.

Lemma u16_lt d2 m :
  0 ≤ d2 → d2 < 65536 ^ 2 → u16 d2 < m ↔ 0 < m ∧ d2 < m * m.
Proof.
  intros H0 Hb. unfold to_uint16.
  assert (Z.sqrt d2 < 65536) as Hs
    by (apply (proj1 (Z.sqrt_lt_square d2 65536 H0 ltac:(lia))); lia).
  rewrite bool_decide_eq_true_2 by done.
  pose proof (Z.sqrt_nonneg d2). split.
  - intros Hm. split; [lia|].
    apply (proj2 (Z.sqrt_lt_square d2 m H0 ltac:(lia))). done.
  - intros [Hm Hd].
    apply (proj1 (Z.sqrt_lt_square d2 m H0 ltac:(lia))). done.
Qed.

Lemma pixel_edt_zeros (input : list (list bool)) y x (vb : bool) q qs :
  zero_positions input = q :: qs → pixel input (y, x) = Some vb →
  pixel (edt input) (y, x) =
  Some (if vb then foldr Z.min (sqdist (y, x) q) (sqdist (y, x) <$> qs) else 0).
Proof.
  intros Hz Hp. rewrite pixel_edt. simpl in Hp.
  destruct (input !! y) as [row|]; [|done]. simpl in *.
  rewrite Hp. simpl. by rewrite Hz.
Qed.

Lemma mask_slice_spec H W (s : Image2) m y x v :
  shape2 H W s →
  (Z.of_nat H - 1) ^ 2 + (Z.of_nat W - 1) ^ 2 < 65536 ^ 2 →
  (∀ q u, pixel s q = Some u → 0 ≤ u) →
  (∃ q u, pixel s q = Some u ∧ u ≠ 0) →
  pixel s (y, x) = Some v →
  ∃ b, pixel (mask_slice' (map2 (λ v, bool_decide (0 < v)) s) m) (y, x) = Some b
       ∧ (b = true ↔
          ∃ q u, pixel s q = Some u ∧ u ≠ 0 ∧ closer_than m (y, x) q).
Proof.
  intros Hs Hbound Hnn (q0 & u0 & Hq0 & Hu0) Hv.
  set (input := logical_not (map2 (λ v, bool_decide (0 < v)) s)).
  assert (Hzero : ∀ q, q ∈ zero_positions input ↔
                       ∃ u, pixel s q = Some u ∧ 0 < u).
  { intros q. rewrite elem_of_zero_positions. unfold input, logical_not.
    rewrite !pixel_map2. destruct (pixel s q) as [u|]; simpl.
    - case_bool_decide; simpl; split; try done.
      + intros _. eauto.
      + intros (? & [= <-] & ?). lia.
    - split; [done|]. by intros (? & ? & _). }
  destruct (zero_positions input) as [|z0 zs] eqn:Ez.
  { exfalso. eapply elem_of_nil, Hzero. exists u0. split; [done|].
    specialize (Hnn _ _ Hq0). lia. }
  unfold mask_slice, less_than. fold input. rewrite !pixel_map2.
  rewrite (pixel_edt_zeros input y x (negb (bool_decide (0 < v))) z0 zs Ez).
  2:{ unfold input, logical_not. by rewrite !pixel_map2, Hv. }
  simpl. eexists. split; [done|].
  destruct (pixel_in_shape H W s y x v Hs Hv) as [Hy Hx].
  assert (Hin : ∀ c, c ∈ sqdist (y, x) z0 :: (sqdist (y, x) <$> zs) →
                     ∃ q u, c = sqdist (y, x) q ∧ pixel s q = Some u ∧ 0 < u).
  { intros c Hc. change (c ∈ sqdist (y, x) <$> z0 :: zs) in Hc.
    apply list_elem_of_fmap in Hc as (q & -> & Hq).
    apply Hzero in Hq as (u & Hu & Hpos). eauto. }
  rewrite bool_decide_eq_true.
  case_bool_decide as Hpos; simpl.
  - (* the pixel itself is a nonzero voxel of the reference *)
    rewrite u16_lt by lia. split.
    + intros [Hm _]. exists (y, x), v. split; [done|]. split; [lia|].
      split; [done|]. rewrite sqdist_self. nia.
    + intros (q & u & _ & _ & [Hm _]). split; [done|nia].
  - set (d2 := foldr Z.min (sqdist (y, x) z0) (sqdist (y, x) <$> zs)).
    destruct (Hin d2 (foldr_min_elem _ _)) as (q & u & Hd & Hq & Hu).
    destruct q as [qy qx].
    destruct (pixel_in_shape H W s qy qx u Hs Hq) as [Hqy Hqx].
    pose proof (sqdist_nonneg (y, x) (qy, qx)).
    pose proof (sqdist_bound H W (y, x) (qy, qx) Hy Hx Hqy Hqx).
    rewrite u16_lt by lia. split.
    + intros [Hm Hlt]. exists (qy, qx), u. split; [done|]. split; [lia|].
      split; [done|]. by rewrite <- Hd.
    + intros (q' & u' & Hq' & Hu' & [Hm Hlt]). split; [done|].
      apply foldr_min_lt_iff. exists (sqdist (y, x) q'). split; [|done].
      change (sqdist (y, x) q' ∈ sqdist (y, x) <$> z0 :: zs).
      apply list_elem_of_fmap_2. apply Hzero.
      exists u'. split; [done|]. specialize (Hnn _ _ Hq'). lia.
Qed.

Lemma roi_mask_of_ok nz H W (R : Image3) m :
  shape3 nz H W R →
  roi_mask_of' R m (H, W) =
  Ok ((λ s, mask_slice' (map2 (λ v, bool_decide (0 < v)) s) m) <$> R).
Proof.
  intros [L F]. unfold roi_mask_of, greater_0, map3.
  rewrite (mapR_ok _ (λ item, mask_slice' item m)).
  - by rewrite <- list_fmap_compose.
  - intros item (s & -> & Hs)%list_elem_of_fmap. cbn [fst snd].
    rewrite broadcast_to_same; [done|].
    apply shape2_map2, shape2_edt, shape2_map2, shape2_map2.
    by apply (proj1 (Forall_forall _ _) F).
Qed.

(** What a call of [create_roi_mask] does to the store. *)
Lemma create_roi_mask_run ref tgt roi px fill sz h :
  run (create_roi_mask' ref tgt roi px fill sz) h =
  match round_div roi px with
  | Raise e => (Raise e, h)
  | Ok m =>
      match roi_mask_of' (h !!! ref) m sz with
      | Raise e => (Raise e, h)
      | Ok mask =>
          match assign_where (invert3 mask) (h !!! tgt) fill with
          | Raise e => (Raise e, h)
          | Ok T' => (Ok tgt, <[tgt := T']> h)
          end
      end
  end.
Proof.
  unfold create_roi_mask. rewrite !run_bind. simpl.
  destruct (round_div roi px) as [m|]; [|done]. simpl.
  destruct (roi_mask_of' (h !!! ref) m sz) as [mask|]; [|done]. simpl.
  by destruct (assign_where (invert3 mask) (h !!! tgt) fill).
Qed.

(** [create_roi_mask] hands back the array it was given. *)
Lemma create_roi_mask_returns_target ref tgt roi px fill sz h l h' :
  run (create_roi_mask' ref tgt roi px fill sz) h = (Ok l, h') → l = tgt.
Proof.
  rewrite create_roi_mask_run.
  destruct (round_div roi px) as [m|]; [|done].
  destruct (roi_mask_of' (h !!! ref) m sz) as [mask|]; [|done].
  destruct (assign_where (invert3 mask) (h !!! tgt) fill); [|done].
  by intros [= <- _].
Qed.


(** C8. Masking a target that [create_roi_mask] has already masked,
    with the same reference array (an array other than the target),
    sizes and fill label, changes nothing: the call returns the same
    array and leaves the store, hence the masked volume, as it is. *)
Theorem create_roi_mask_idempotent ref tgt roi px fill sz h l h1 :
  ref ≠ tgt →
  run (create_roi_mask round_div edt_no_zero uint16_out_of_range
       ref tgt roi px fill sz) h = (Ok l, h1) →
  run (create_roi_mask round_div edt_no_zero uint16_out_of_range
       ref tgt roi px fill sz) h1 = (Ok l, h1).
Proof.
  intros Hne. rewrite !create_roi_mask_run.
  destruct (round_div roi px) as [m|]; [|done].
  destruct (roi_mask_of' (h !!! ref) m sz) as [mask|] eqn:Emask; [|done].
  destruct (assign_where (invert3 mask) (h !!! tgt) fill) as [T'|] eqn:Ea;
    [|done].
  intros [= <- <-].
  destruct (decide (tgt < length h)%nat) as [Hlt|Hge].
  - rewrite list_lookup_total_insert_ne by done. rewrite Emask.
    rewrite list_lookup_total_insert_eq by done.
    rewrite (assign_where_idemp _ _ _ _ Ea).
    by rewrite list_insert_insert_eq.
  - rewrite list_insert_ge by lia. rewrite Emask, Ea.
    by rewrite list_insert_ge by lia.
Qed.
End roi_mask.

(** * The derived quantities *)

Lemma count_value_nonneg vals c : 0 ≤ count_value vals c.
Proof. unfold count_value. lia. Qed.

(** Reading the counts of a histogram whose first bin is the value 0 by
    a label code that is not negative. *)
Lemma np_index_counts_from_0 vals hi l :
  0 ≤ l →
  np_index (count_value vals <$> arange 0 (hi + 1)) l =
  if decide (l ≤ hi) then Ok (count_value vals l) else Raise IndexError.
Proof.
  intros Hl. case_decide as H.
  - rewrite <- (Z2Nat.id l) at 1 by lia. apply np_index_nat.
    rewrite list_lookup_fmap, lookup_arange by lia. simpl. do 2 f_equal. lia.
  - apply np_index_ge. unfold arange. rewrite !length_fmap, length_seq. lia.
Qed.

Section quantities.
Context {Float : Type}.
Variable round_div : Float → Float → result Z.
Variable of_int : Z → Float.
Variable edt_no_zero : nat → nat → nat → nat → Z.
Variable uint16_out_of_range : Z → Z.

Local Abbreviation create_roi_mask' :=
  (create_roi_mask round_div edt_no_zero uint16_out_of_range).
Local Abbreviation get_BIC_images' :=
  (get_BIC_images round_div of_int edt_no_zero uint16_out_of_range).
Local Abbreviation get_bone_to_implant_contact' :=
  (get_bone_to_implant_contact round_div of_int edt_no_zero uint16_out_of_range).
Local Abbreviation get_bone_volume_to_total_volume' :=
  (get_bone_volume_to_total_volume round_div edt_no_zero uint16_out_of_range).

Implicit Types (self : Sample Float) (h : heap).

Lemma run_getitem d key h :
  run (getitem d key) h =
  (match d !! key with Some v => Ok v | None => Raise KeyError end, h).
Proof. done. Qed.

(** [get_bone_volume_to_total_volume] once the mask has been applied:
    the two counts are read from the histogram at the positions given
    by the label codes. *)
Lemma bv_tv_after_mask self roi h h' l_screw l_bone l_background counts centers :
  label_dict self !! "screw" = Some l_screw →
  label_dict self !! "bone" = Some l_bone →
  label_dict self !! "background" = Some l_background →
  run (create_roi_mask' (ref_image self) (target_image self) roi
         (pixel_size self) l_screw (img_size self)) h
  = (Ok (target_image self), h') →
  histogram (ravel3 (h' !!! target_image self)) = Ok (counts, centers) →
  run (get_bone_volume_to_total_volume' self roi) h =
  (v_bone ← np_index counts l_bone;
   v_background ← np_index counts l_background;
   Ok (np_true_divide v_bone (v_bone + v_background)), h').
Proof.
  intros Es Eb Eg Hrun Hh. unfold get_bone_volume_to_total_volume.
  rewrite run_bind, run_getitem, Es. rewrite run_bind, Hrun.
  rewrite run_bind. cbn [load run]. rewrite run_bind. cbn [lift run].
  rewrite Hh. rewrite run_bind, run_getitem, Eb.
  rewrite run_bind. cbn [lift run].
  destruct (np_index counts l_bone) as [v_bone|]; [|done].
  rewrite run_bind, run_getitem, Eg. rewrite run_bind. cbn [lift run].
  by destruct (np_index counts l_background).
Qed.

(** The masked volume holds a 0 as its smallest value: bin [i] is the
    bin of label [i]. *)
Lemma bv_tv_min_zero self roi h h' l_screw l_bone l_background v vs :
  label_dict self !! "screw" = Some l_screw →
  label_dict self !! "bone" = Some l_bone →
  label_dict self !! "background" = Some l_background →
  0 ≤ l_bone → 0 ≤ l_background →
  run (create_roi_mask' (ref_image self) (target_image self) roi
         (pixel_size self) l_screw (img_size self)) h
  = (Ok (target_image self), h') →
  ravel3 (h' !!! target_image self) = v :: vs →
  foldr Z.min v vs = 0 →
  run (get_bone_volume_to_total_volume' self roi) h =
  (if decide (l_bone ≤ foldr Z.max v vs ∧ l_background ≤ foldr Z.max v vs)
   then Ok (np_true_divide
              (count_value (v :: vs) l_bone)
              (count_value (v :: vs) l_bone
               + count_value (v :: vs) l_background))
   else Raise IndexError, h').
Proof.
  intros Es Eb Eg Hb Hg Hrun Hvals Hmin.
  rewrite (bv_tv_after_mask self roi h h' l_screw l_bone l_background
             (count_value (v :: vs) <$> arange 0 (foldr Z.max v vs + 1))
             (arange 0 (foldr Z.max v vs + 1))); [|done..|].
  2:{ rewrite Hvals. cbn [histogram]. by rewrite Hmin. }
  rewrite !np_index_counts_from_0 by done.
  repeat case_decide; try done; lia.
Qed.

(** Both counts read are 0: the quotient is [nan], and nothing is
    raised. *)
Lemma bv_tv_zero_counts self roi h h' l_screw l_bone l_background counts centers :
  label_dict self !! "screw" = Some l_screw →
  label_dict self !! "bone" = Some l_bone →
  label_dict self !! "background" = Some l_background →
  run (create_roi_mask' (ref_image self) (target_image self) roi
         (pixel_size self) l_screw (img_size self)) h
  = (Ok (target_image self), h') →
  histogram (ravel3 (h' !!! target_image self)) = Ok (counts, centers) →
  np_index counts l_bone = Ok 0 →
  np_index counts l_background = Ok 0 →
  run (get_bone_volume_to_total_volume' self roi) h = (Ok NaN, h').
Proof.
  intros Es Eb Eg Hrun Hh H1 H2.
  rewrite (bv_tv_after_mask _ _ _ _ _ _ _ _ _ Es Eb Eg Hrun Hh).
  by rewrite H1, H2.
Qed.

(** [get_bone_to_implant_contact] once the two images are there. *)
Lemma bic_after_images self h h1 screw screw_bone l_screw l_bone l_background :
  run (get_BIC_images' self true) h = (Ok (screw, screw_bone), h1) →
  label_dict self !! "screw" = Some l_screw →
  label_dict self !! "bone" = Some l_bone →
  label_dict self !! "background" = Some l_background →
  run (get_bone_to_implant_contact' self) h =
  (contact_implant_bone ← contact_area (h1 !!! screw_bone) l_screw l_bone;
   contact_background_implant ←
     contact_area (h1 !!! screw) l_screw l_background;
   py_true_divide contact_implant_bone contact_background_implant, h1).
Proof.
  intros Hrun Es Eb Eg. unfold get_bone_to_implant_contact.
  rewrite run_bind, Hrun. rewrite run_bind. cbn [load run].
  rewrite run_bind, run_getitem, Es. rewrite run_bind, run_getitem, Eb.
  rewrite run_bind. cbn [lift run].
  destruct (contact_area (h1 !!! screw_bone) l_screw l_bone) as [c1|]; [|done].
  rewrite run_bind. cbn [load run]. rewrite run_bind, run_getitem, Eg.
  rewrite run_bind. cbn [lift run].
  by destruct (contact_area (h1 !!! screw) l_screw l_background).
Qed.

(** No screw voxel touches a background voxel in the masked image: the
    division of the two Python integers raises. *)
Lemma bic_zero_contact self h h1 screw screw_bone l_screw l_bone l_background n :
  run (get_BIC_images' self true) h = (Ok (screw, screw_bone), h1) →
  label_dict self !! "screw" = Some l_screw →
  label_dict self !! "bone" = Some l_bone →
  label_dict self !! "background" = Some l_background →
  contact_area (h1 !!! screw_bone) l_screw l_bone = Ok n →
  contact_area (h1 !!! screw) l_screw l_background = Ok 0 →
  run (get_bone_to_implant_contact' self) h = (Raise ZeroDivisionError, h1).
Proof.
  intros Hrun Es Eb Eg H1 H2.
  rewrite (bic_after_images _ _ _ _ _ _ _ _ Hrun Es Eb Eg).
  by rewrite H1, H2.
Qed.
(** Whatever the two counts are, the quotient returned is that of two
    integers with a divisor other than 0: never [inf], never [nan]. *)
Lemma bic_never_inf_nan self h r h' :
  run (get_bone_to_implant_contact' self) h = (Ok r, h') →
  ∃ n d, r = Quot n d ∧ d ≠ 0.
Proof.
  unfold get_bone_to_implant_contact. rewrite run_bind.
  destruct (run (get_BIC_images' self true) h) as [[[screw screw_bone]|e] h1];
    [|done].
  rewrite run_bind. cbn [load run]. rewrite run_bind, run_getitem.
  destruct (label_dict self !! "screw") as [l_screw|]; [|done].
  rewrite run_bind, run_getitem.
  destruct (label_dict self !! "bone") as [l_bone|]; [|done].
  rewrite run_bind. cbn [lift run].
  destruct (contact_area (h1 !!! screw_bone) l_screw l_bone) as [c1|]; [|done].
  rewrite run_bind. cbn [load run]. rewrite run_bind, run_getitem.
  destruct (label_dict self !! "background") as [l_background|]; [|done].
  rewrite run_bind. cbn [lift run].
  destruct (contact_area (h1 !!! screw) l_screw l_background) as [c2|]; [|done].
  unfold py_true_divide. case_bool_decide; [done|]. intros [= <- <-]. eauto.
Qed.

(** [filter_labels] builds a new array and leaves the others alone. *)
Lemma filter_labels_fresh image labels h :
  ∃ v, run (filter_labels image labels) h = (Ok (length h), h ++ [v]).
Proof. eexists. reflexivity. Qed.
End quantities.


Lemma create_roi_mask_idempotent_witness :
  run (create_roi_mask_int 0%nat 1%nat 2 1 1 (1%nat, 3%nat))
      [ [[[2; 0; 0]]]; [[[0; 3; 1]]] ]
  = (Ok 1%nat, [ [[[2; 0; 0]]]; [[[0; 3; 1]]] ]).
Proof.
  apply (create_roi_mask_idempotent round_div_int no_zero_0 out_of_range_0
           0 1 2 1 1 (1%nat, 3%nat) heap_a).
  - lia.
  - reflexivity.
Defined.

(** C3. A call of [get_bone_volume_to_total_volume] writes the mask into
    the target array of the sample.  With the reference [[[2, 0, 0]]],
    the target [[[0, 3, 3]]], the labels background 0, screw 1, bone 3
    and a threshold of 2 voxels the call returns 1/2 and leaves the
    target [[[0, 3, 1]]]: the count of screw voxels of the target, 0
    before the call, is 1 after it.  A second call returns 1/2 again and
    changes nothing more. *)
Theorem bv_tv_overwrites_target :
  run (get_bone_volume_to_total_volume_int sample_a 2) heap_a
  = (Ok (Quot 1 2), [ [[[2; 0; 0]]]; [[[0; 3; 1]]] ])
  ∧ heap_a !!! target_image sample_a = [[[0; 3; 3]]]
  ∧ count_voxels_per_label [[[0; 3; 3]]] 1 = Ok 0
  ∧ count_voxels_per_label [[[0; 3; 1]]] 1 = Ok 1
  ∧ run (get_bone_volume_to_total_volume_int sample_a 2)
        [ [[[2; 0; 0]]]; [[[0; 3; 1]]] ]
    = (Ok (Quot 1 2), [ [[[2; 0; 0]]]; [[[0; 3; 1]]] ]).
Proof. repeat split; by vm_compute. Qed.




(** C9. [get_bone_volume_to_total_volume] reads the two counts at the
    positions [bone] and [background] of the histogram.  When the
    smallest value of the masked volume is 0 (and the label codes are not
    negative) these are the bins of the two labels: the call returns
    count(bone) / (count(bone) + count(background)) on the masked volume,
    provided both codes are at most the largest value ([IndexError] if
    not).  In the masked volume [[[1, 3, 3, 4]]], whose smallest value is
    1, position 3 is the bin of label 4 and position 0 the bin of label 1:
    the call returns 1/2, while the counts of bone (3) and background (0)
    are 2 and 0, whose quotient 2/2 is another number. *)
Theorem bv_tv_positional_lookup :
  (∀ (Float : Type) (round_div : Float → Float → result Z)
     edt_no_zero uint16_out_of_range (self : Sample Float) roi h h'
     l_screw l_bone l_background v vs,
     label_dict self !! "screw" = Some l_screw →
     label_dict self !! "bone" = Some l_bone →
     label_dict self !! "background" = Some l_background →
     0 ≤ l_bone → 0 ≤ l_background →
     run (create_roi_mask round_div edt_no_zero uint16_out_of_range
            (ref_image self) (target_image self) roi (pixel_size self)
            l_screw (img_size self)) h = (Ok (target_image self), h') →
     ravel3 (h' !!! target_image self) = v :: vs →
     foldr Z.min v vs = 0 →
     run (get_bone_volume_to_total_volume round_div edt_no_zero
            uint16_out_of_range self roi) h =
     (if decide (l_bone ≤ foldr Z.max v vs ∧ l_background ≤ foldr Z.max v vs)
      then Ok (np_true_divide
                 (count_value (v :: vs) l_bone)
                 (count_value (v :: vs) l_bone
                  + count_value (v :: vs) l_background))
      else Raise IndexError, h'))
  ∧ (run (get_bone_volume_to_total_volume_int sample_b 1) heap_b
     = (Ok (Quot 1 2), [ [[[2; 2; 2; 2]]]; [[[1; 3; 3; 4]]] ])
     ∧ foldr Z.min 1 [3; 3; 4] = 1
     ∧ np_index (count_value [1; 3; 3; 4] <$> arange 1 5) 3
       = Ok (count_value [1; 3; 3; 4] 4)
     ∧ np_true_divide (count_value [1; 3; 3; 4] 3)
         (count_value [1; 3; 3; 4] 3 + count_value [1; 3; 3; 4] 0) = Quot 2 2
     ∧ 1 * 2 ≠ 2 * 2).
Proof.
  split.
  - intros. by eapply bv_tv_min_zero.
  - repeat split; by vm_compute.
Qed.

Lemma bv_tv_positional_lookup_witness :
  run (get_bone_volume_to_total_volume_int sample_a 2) heap_a =
  (if decide (3 ≤ foldr Z.max 0 [3; 1] ∧ 0 ≤ foldr Z.max 0 [3; 1])
   then Ok (np_true_divide
              (count_value [0; 3; 1] 3)
              (count_value [0; 3; 1] 3 + count_value [0; 3; 1] 0))
   else Raise IndexError, [ [[[2; 0; 0]]]; [[[0; 3; 1]]] ]).
Proof.
  apply (proj1 bv_tv_positional_lookup Z round_div_int no_zero_0
           out_of_range_0 sample_a 2 heap_a [ [[[2; 0; 0]]]; [[[0; 3; 1]]] ]
           1 3 0 0 [3; 1]); try reflexivity; lia.
Defined.

(** * Further properties of the contact counters *)

Section contact_layer.
Local Open Scope nat_scope.
Implicit Types (s : Image2) (a b : Z).

Lemma x_part2 s a b ny nx :
  shape2 ny nx s →
  both2 a b (but_last <$> s) (from_1 <$> s) = sum2 ny nx (Tx2 s a b).
Proof.
  intros Hs. rewrite both2_zip, sum_zip_diag, sum_index.
  rewrite (proj1 Hs). unfold sum2. apply sum1_ext. intros y Hy.
  destruct (shape2_lookup _ _ _ y Hs Hy) as (r & Er & Hr).
  rewrite Er. cbn [from_option].
  rewrite both1_zip, sum_zip_slices, adjacent_index, Hr.
  apply sum1_ext. intros x Hx. unfold Tx2. simpl. rewrite Er. simpl.
  destruct (r !! x), (r !! S x); by rewrite ?ind_None_l, ?ind_None_r.
Qed.

Lemma y_part2 s a b ny nx :
  shape2 ny nx s →
  both2 a b (but_last s) (from_1 s) = sum2 ny nx (Ty2 s a b).
Proof.
  intros Hs. rewrite both2_zip, sum_zip_slices, adjacent_index.
  rewrite (proj1 Hs). unfold sum2. apply sum1_ext. intros y Hy.
  destruct (shape2_lookup _ _ _ y Hs Hy) as (r1 & E1 & H1).
  rewrite E1. unfold Ty2. simpl. rewrite E1. simpl.
  destruct (s !! S y) as [r2|] eqn:E2; simpl.
  - apply both1_index; [done|].
    by apply (Forall_lookup_1 _ _ _ _ (proj2 Hs) E2).
  - symmetry. etrans; [|apply (sum_list_with_zero (seq 0 nx))].
    apply sum_list_with_ext_in. intros x _. apply ind_None_r.
Qed.

Lemma pixel_out_x ny nx s y x : shape2 ny nx s → nx ≤ x → pixel s (y, x) = None.
Proof.
  intros [_ F] Hx. simpl. destruct (s !! y) as [r|] eqn:Er; [|done]. simpl.
  apply lookup_ge_None_2.
  pose proof (Forall_lookup_1 _ _ _ _ F Er) as Hr. simpl in Hr. lia.
Qed.

Lemma pixel_out_y ny nx s y x : shape2 ny nx s → ny ≤ y → pixel s (y, x) = None.
Proof.
  intros [L _] Hy. simpl. rewrite (lookup_ge_None_2 s y); [done|lia].
Qed.

Lemma length_filter_pair2 s a b (p q : position2) :
  length (filter (λ pq : position2 * position2,
                    pixel s pq.1 = Some a ∧ pixel s pq.2 = Some b) [(p, q)]) =
  ind (pixel s p) (pixel s q) a b.
Proof.
  unfold ind. rewrite filter_cons, filter_nil. simpl fst. simpl snd.
  by repeat case_decide.
Qed.

Lemma count_pairs2_sum2 ny nx s a b :
  shape2 ny nx s →
  count_pairs2 ny nx s a b = sum2 ny nx (λ y x, Tx2 s a b y x + Ty2 s a b y x).
Proof.
  intros Hs. unfold count_pairs2, forward_neighbours2, sum2.
  rewrite length_filter_bind. apply sum1_ext. intros y Hy.
  rewrite length_filter_bind. apply sum1_ext. intros x Hx.
  rewrite !filter_app, !length_app, !Nat.add_1_r.
  unfold Tx2, Ty2. f_equal.
  - case_decide; [apply length_filter_pair2|].
    rewrite (pixel_out_x ny nx s y (S x)), ind_None_r by (done || lia). done.
  - case_decide; [apply length_filter_pair2|].
    rewrite (pixel_out_y ny nx s (S y) x), ind_None_r by (done || lia). done.
Qed.

Lemma four_comparisons ny nx s a b :
  shape2 ny nx s →
  both2 a b (but_last <$> s) (from_1 <$> s)
  + both2 b a (but_last <$> s) (from_1 <$> s)
  + both2 a b (but_last s) (from_1 s)
  + both2 b a (but_last s) (from_1 s)
  = count_pairs2 ny nx s a b + count_pairs2 ny nx s b a.
Proof.
  intros Hs. rewrite !(count_pairs2_sum2 ny nx) by done. rewrite !sum2_add.
  rewrite !(x_part2 _ _ _ ny nx), !(y_part2 _ _ _ ny nx) by done. lia.
Qed.
End contact_layer.

(** X1. On a slice of shape [ny × nx] and two labels that lie in the
    value range of the slice (in particular two labels that occur),
    [contact_area_layer] returns the number of forward neighbours of the
    slice (a pixel and the next one along X or Y, both inside) labelled
    [(label1, label2)] plus the number labelled [(label2, label1)]; no
    pair crosses the border of the slice. *)
Theorem contact_area_layer_counts_forward_pairs ny nx (S : Image2) a b :
  shape2 ny nx S →
  in_value_range (ravel2 S) a → in_value_range (ravel2 S) b →
  contact_area_layer S a b =
  Ok (Z.of_nat (count_pairs2 ny nx S a b + count_pairs2 ny nx S b a)).
Proof.
  intros HS Ha Hb. unfold contact_area_layer.
  destruct (histogram_nonempty (ravel2 S)) as (counts & centers & E).
  { destruct Ha as (lo & _ & Hlo & _). intros E. rewrite E in Hlo.
    by apply elem_of_nil in Hlo. }
  rewrite E. simpl.
  rewrite bool_decide_eq_false_2.
  2:{ rewrite !(histogram_centers _ _ _ _ E). tauto. }
  f_equal. pose proof (four_comparisons ny nx S a b HS) as H.
  unfold both2 in H. lia.
Qed.

Lemma contact_area_layer_counts_forward_pairs_witness :
  contact_area_layer [[0; 1; 0]; [1; 1; 0]] 0 1 =
  Ok (Z.of_nat (count_pairs2 2 3 [[0; 1; 0]; [1; 1; 0]] 0 1
                + count_pairs2 2 3 [[0; 1; 0]; [1; 1; 0]] 1 0)).
Proof.
  apply (contact_area_layer_counts_forward_pairs 2 3).
  - split; [reflexivity|]. repeat constructor.
  - exists 0, 0. vm_compute. repeat split; try discriminate;
      apply list_elem_of_here.
  - exists 1, 1. vm_compute. repeat split; try discriminate;
      apply list_elem_of_further, list_elem_of_here.
Defined.


Lemma in_value_range_uniform vals v c :
  vals ≠ [] → Forall (λ u, u = v) vals → in_value_range vals c ↔ c = v.
Proof.
  intros Hne Hall. rewrite Forall_forall in Hall. split.
  - intros (lo & hi & Hlo & Hhi & H).
    rewrite (Hall lo Hlo), (Hall hi Hhi) in H. lia.
  - intros ->. destruct vals as [|u vals]; [done|].
    apply in_value_range_elem. rewrite (Hall u) by left. left.
Qed.

(** X3. On a volume that is not empty and whose voxels all carry one
    value, [contact_area] raises [ValueError] for every pair of distinct
    labels: at least one of them is outside the range of the histogram.
    It does not return 0. *)
Theorem contact_area_uniform_volume_raises (V : Image3) v a b :
  ravel3 V ≠ [] → Forall (λ u, u = v) (ravel3 V) → a ≠ b →
  contact_area V a b = Raise ValueError.
Proof.
  intros Hne Hall Hab. unfold contact_area.
  destruct (histogram_nonempty (ravel3 V) Hne) as (counts & centers & E).
  rewrite E. simpl. rewrite bool_decide_eq_true_2; [done|].
  rewrite !(histogram_centers _ _ _ _ E).
  rewrite !(in_value_range_uniform _ v) by done.
  destruct (decide (a = v)); [right|left]; congruence.
Qed.

Lemma contact_area_uniform_volume_raises_witness :
  contact_area [[[1; 1]; [1; 1]]] 0 1 = Raise ValueError.
Proof.
  apply (contact_area_uniform_volume_raises _ 1).
  - vm_compute. discriminate.
  - vm_compute. repeat constructor.
  - lia.
Defined.

(** X4. [count_voxels_per_label], case by case: on an empty image it
    raises [ValueError]; for a label between the smallest and the largest
    value of the image it returns the number of voxels equal to the label
    (0 when the label does not occur); for any other label it raises
    [IndexError]. *)
Theorem count_voxels_per_label_behaviour (image : Image3) label :
  (ravel3 image = [] → count_voxels_per_label image label = Raise ValueError)
  ∧ (in_value_range (ravel3 image) label →
     count_voxels_per_label image label
     = Ok (Z.of_nat (length (filter (λ v, v = label) (ravel3 image)))))
  ∧ (ravel3 image ≠ [] → ¬ in_value_range (ravel3 image) label →
     count_voxels_per_label image label = Raise IndexError).
Proof.
  split; [|split].
  - intros E. rewrite count_voxels_per_label_cases. by rewrite E.
  - apply count_voxels_per_label_in_range.
  - apply count_voxels_per_label_out_of_range.
Qed.

Lemma count_voxels_per_label_behaviour_witness :
  count_voxels_per_label [[[0; 3; 3]]] 3 = Ok 2
  ∧ count_voxels_per_label [[[0; 3; 3]]] 1 = Ok 0
  ∧ count_voxels_per_label [[[0; 3; 3]]] 4 = Raise IndexError
  ∧ count_voxels_per_label [[[]]] 4 = Raise ValueError.
Proof.
  split; [|split; [|split]].
  - apply (proj1 (proj2 (count_voxels_per_label_behaviour [[[0; 3; 3]]] 3))).
    exists 3, 3. vm_compute. repeat split; try discriminate;
      apply list_elem_of_further, list_elem_of_here.
  - apply (proj1 (proj2 (count_voxels_per_label_behaviour [[[0; 3; 3]]] 1))).
    exists 0, 3. vm_compute. repeat split; try discriminate;
      [apply list_elem_of_here|apply list_elem_of_further, list_elem_of_here].
  - apply (proj2 (proj2 (count_voxels_per_label_behaviour [[[0; 3; 3]]] 4))).
    + vm_compute. discriminate.
    + intros (lo & hi & Hlo & Hhi & H). vm_compute in Hhi.
      apply list_elem_of_In in Hhi. simpl in Hhi. lia.
  - apply (proj1 (count_voxels_per_label_behaviour [[[]]] 4)). reflexivity.
Defined.

(** * Label filtering *)

Lemma lengths3_lookup {A} (a : list (list (list A))) z :
  lengths3 a !! z = (λ s : list (list A), length <$> s) <$> a !! z.
Proof. unfold lengths3, map2. by rewrite list_lookup_fmap. Qed.

(** Arrays of one shape have their voxels at the same positions. *)
Lemma voxel_Some_lengths {A B} (a : list (list (list A)))
    (b : list (list (list B))) p u :
  lengths3 a = lengths3 b → voxel a p = Some u → ∃ v, voxel b p = Some v.
Proof.
  destruct p as [[z y] x]. intros E Hu. cbn [voxel] in *.
  pose proof (f_equal (.!! z) E) as Ez. rewrite !lengths3_lookup in Ez.
  destruct (a !! z) as [sa|]; [|done]. destruct (b !! z) as [sb|]; [|done].
  simpl in *. injection Ez as Ez.
  pose proof (f_equal (.!! y) Ez) as Ey. rewrite !list_lookup_fmap in Ey.
  destruct (sa !! y) as [ra|]; [|done]. destruct (sb !! y) as [rb|]; [|done].
  simpl in *. injection Ey as Ey.
  apply lookup_lt_Some in Hu. apply lookup_lt_is_Some_2. lia.
Qed.

(** Two arrays of one shape that agree voxel by voxel are equal. *)
Lemma image_ext {A} (a b : list (list (list A))) :
  lengths3 a = lengths3 b →
  (∀ p u, voxel a p = Some u → voxel b p = Some u) → a = b.
Proof.
  intros E H. apply list_eq. intros z.
  pose proof (f_equal (.!! z) E) as Ez. rewrite !lengths3_lookup in Ez.
  destruct (a !! z) as [sa|] eqn:Ea, (b !! z) as [sb|] eqn:Eb; try done.
  simpl in Ez. injection Ez as Ez. f_equal. apply list_eq. intros y.
  pose proof (f_equal (.!! y) Ez) as Ey. rewrite !list_lookup_fmap in Ey.
  destruct (sa !! y) as [ra|] eqn:Era, (sb !! y) as [rb|] eqn:Erb; try done.
  simpl in Ey. injection Ey as Ey. f_equal. apply list_eq. intros x.
  destruct (ra !! x) as [u|] eqn:Eu.
  - specialize (H (z, y, x) u). cbn [voxel] in H. rewrite Ea, Eb in H.
    simpl in H. rewrite Era, Erb in H. simpl in H. symmetry. by apply H.
  - symmetry. apply lookup_ge_None_2. apply lookup_ge_None_1 in Eu. lia.
Qed.

Lemma lengths3_map3 {A B} (f : A → B) (a : list (list (list A))) :
  lengths3 (map3 f a) = lengths3 a.
Proof.
  unfold lengths3, map3, map2. rewrite <- list_fmap_compose.
  apply list_fmap_ext. intros _ s _. simpl. rewrite <- list_fmap_compose.
  apply list_fmap_ext. intros _ r _. simpl. by rewrite length_fmap.
Qed.

Lemma lengths3_filter_labels_step image acc label :
  lengths3 acc = lengths3 image →
  lengths3 (filter_labels_step image acc label) = lengths3 image.
Proof.
  intros E. unfold filter_labels_step.
  rewrite lengths3_zip_with3; rewrite lengths3_map3; done.
Qed.

Lemma lengths3_foldl_filter_labels_step image acc labels :
  lengths3 acc = lengths3 image →
  lengths3 (foldl (filter_labels_step image) acc labels) = lengths3 image.
Proof.
  revert acc. induction labels as [|l labels IH]; intros acc E; [done|].
  simpl. apply IH. by apply lengths3_filter_labels_step.
Qed.

Lemma voxel_filter_labels_step image acc label p v old :
  voxel image p = Some v → voxel acc p = Some old →
  voxel (filter_labels_step image acc label) p =
  Some (if decide (v = label ∨ label = 0) then int8 label else old).
Proof.
  intros Hv Hold. unfold filter_labels_step.
  rewrite voxel_zip_with3, voxel_map3, Hv, Hold. simpl. f_equal.
  destruct (decide (v = label)) as [->|Hne].
  - rewrite (bool_decide_eq_true_2 (label = label)) by done. cbv iota.
    rewrite bool_decide_eq_true_2 by done. by rewrite decide_True by auto.
  - rewrite (bool_decide_eq_false_2 (v = label)) by done. cbv iota.
    destruct (decide (label = 0)) as [->|H0].
    + rewrite bool_decide_eq_true_2 by done. by rewrite decide_True by auto.
    + rewrite bool_decide_eq_false_2 by congruence.
      rewrite decide_False; [done|]. intros [?|?]; congruence.
Qed.

Lemma voxel_foldl_filter_labels_step image labels acc p v old :
  lengths3 acc = lengths3 image →
  voxel image p = Some v → voxel acc p = Some old →
  voxel (foldl (filter_labels_step image) acc labels) p =
  Some (filtered_value v labels old).
Proof.
  revert acc old. induction labels as [|l labels IH]; intros acc old E Hv Hold;
    [done|].
  simpl. apply IH; [by apply lengths3_filter_labels_step|done|].
  by apply voxel_filter_labels_step.
Qed.

Lemma int8_small z : -128 ≤ z ≤ 127 → int8 z = z.
Proof. intros H. unfold int8. rewrite Z.mod_small; lia. Qed.

Lemma filtered_value_no_zero v labels start :
  0 ∉ labels → Forall (λ l, -128 ≤ l ≤ 127) labels →
  filtered_value v labels start = if decide (v ∈ labels) then v else start.
Proof.
  unfold filtered_value. revert start.
  induction labels as [|l labels IH]; intros start H0 Hr.
  { cbn [foldl]. case_decide as H; [by apply elem_of_nil in H|done]. }
  apply not_elem_of_cons in H0 as [Hl H0]. inversion_clear Hr as [|?? Hl8 Hr'].
  cbn [foldl]. rewrite IH by done.
  destruct (decide (v ∈ labels)) as [Hin|Hnin].
  - by rewrite (decide_True (P := v ∈ l :: labels)) by (by right).
  - destruct (decide (v = l)) as [->|Hne].
    + rewrite decide_True by auto.
      rewrite (decide_True (P := l ∈ l :: labels)) by left.
      by apply int8_small.
    + rewrite decide_False by (intros [?|?]; congruence).
      rewrite decide_False; [done|]. rewrite elem_of_cons. by intros [?|?].
Qed.

Lemma filtered_value_zero v l1 l2 start :
  filtered_value v (l1 ++ 0 :: l2) start = filtered_value v l2 0.
Proof.
  unfold filtered_value. rewrite foldl_app. simpl.
  by rewrite decide_True by auto.
Qed.

Section filter_labels_props.
Implicit Types (h : heap).

(** X5. [filter_labels] builds a new array and touches no other: it
    returns the next free location and the store grows by that one
    array, which has the shape of the image.  When 0 is not among the
    labels (and the labels fit [int8]), a voxel of the new array holds
    the value of the image if that value is one of the labels, and 0 if
    not. *)
Theorem filter_labels_keeps_listed_labels image labels h :
  0 ∉ labels → Forall (λ l, -128 ≤ l ≤ 127) labels →
  ∃ F, run (filter_labels image labels) h = (Ok (length h), h ++ [F])
       ∧ lengths3 F = lengths3 (h !!! image)
       ∧ ∀ p v, voxel (h !!! image) p = Some v →
           voxel F p = Some (if decide (v ∈ labels) then v else 0).
Proof.
  intros H0 Hr. eexists. split; [reflexivity|]. split.
  - apply lengths3_foldl_filter_labels_step, lengths3_map3.
  - intros p v Hv.
    rewrite (voxel_foldl_filter_labels_step _ _ _ _ v 0); [| |done|].
    + by rewrite filtered_value_no_zero.
    + apply lengths3_map3.
    + by rewrite voxel_map3, Hv.
Qed.

(** X6. A 0 among the labels wipes what the labels before it have
    selected: [filter_labels] with the labels [l1 ++ 0 :: l2] gives the
    array it gives with [l2] alone (all zeros when the list ends with
    0). *)
Theorem filter_labels_zero_label_wipes image l1 l2 h :
  run (filter_labels image (l1 ++ 0 :: l2)) h = run (filter_labels image l2) h.
Proof.
  unfold filter_labels. rewrite !run_bind. cbn [load run alloc].
  do 3 f_equal. apply image_ext.
  - rewrite !lengths3_foldl_filter_labels_step; [done|apply lengths3_map3..].
  - intros p u Hu.
    pose proof (lengths3_foldl_filter_labels_step (h !!! image)
                  (map3 (λ _ : Z, 0) (h !!! image)) (l1 ++ 0 :: l2)
                  (lengths3_map3 _ _)) as HL.
    destruct (voxel_Some_lengths _ _ p u HL Hu) as [v Hv].
    assert (Hz : voxel (map3 (λ _ : Z, 0) (h !!! image)) p = Some 0)
      by (by rewrite voxel_map3, Hv).
    rewrite (voxel_foldl_filter_labels_step _ _ _ _ v 0) in Hu;
      [|apply lengths3_map3|done..].
    rewrite (voxel_foldl_filter_labels_step _ _ _ _ v 0);
      [|apply lengths3_map3|done..].
    by rewrite filtered_value_zero in Hu.
Qed.
End filter_labels_props.

Lemma filter_labels_keeps_listed_labels_witness :
  ∃ F, run (filter_labels 1%nat [1; 4]) heap_d
       = (Ok 2%nat, heap_d ++ [F])
       ∧ lengths3 F = lengths3 (heap_d !!! 1%nat)
       ∧ ∀ p v, voxel (heap_d !!! 1%nat) p = Some v →
           voxel F p = Some (if decide (v ∈ [1; 4]) then v else 0).
Proof.
  apply (filter_labels_keeps_listed_labels 1%nat [1; 4] heap_d).
  - intros H. apply list_elem_of_In in H. simpl in H. lia.
  - repeat constructor; lia.
Defined.

(** * Further properties of the region of interest *)

Lemma mapR_bind_ok {A B C} (f : A → result B) (g : B → C) (l : list A) :
  mapR (λ x, (f x ≫= λ y : B, Ok (g y)) : result C) l =
  ((mapR f l ≫= λ ys : list B, Ok (g <$> ys)) : result (list C)).
Proof.
  induction l as [|x l IH]; [done|]. cbn [mapR].
  destruct (f x) as [y|e]; [|done]. cbn [mbind result_bind].
  rewrite IH. by destruct (mapR f l).
Qed.

Lemma mapR_length {A B} (f : A → result B) (l : list A) ys :
  mapR f l = Ok ys → length ys = length l.
Proof.
  revert ys. induction l as [|x l IH]; intros ys; [by intros [= <-]|].
  cbn [mapR]. destruct (f x) as [y|]; [|done]. cbn [mbind result_bind].
  destruct (mapR f l) as [ys'|]; [|done]. cbn [mbind result_bind].
  intros [= <-]. simpl. f_equal. by apply IH.
Qed.

Lemma mapR_raise_first {A B} (f : A → result B) x (l : list A) e :
  f x = Raise e → mapR f (x :: l) = Raise e.
Proof. intros E. cbn [mapR]. by rewrite E. Qed.

Lemma mapR_lookup {A B} (f : A → result B) (l : list A) ys i y :
  mapR f l = Ok ys → ys !! i = Some y → ∃ x, l !! i = Some x ∧ f x = Ok y.
Proof.
  revert ys i. induction l as [|x l IH]; intros ys i; [by intros [= <-]|].
  cbn [mapR]. destruct (f x) as [y0|] eqn:E; [|done]. cbn [mbind result_bind].
  destruct (mapR f l) as [ys'|]; [|done]. cbn [mbind result_bind].
  intros [= <-]. destruct i as [|i]; simpl.
  - intros [= <-]. eauto.
  - intros Hy. by apply (IH ys').
Qed.

(** An element of a broadcast axis is the element at the same index of
    the source, or the only element of the source. *)
Lemma broadcast_axis_lookup {A} n (l l' : list A) i b :
  broadcast_axis n l = Ok l' → l' !! i = Some b → l !! i = Some b ∨ l = [b].
Proof.
  unfold broadcast_axis. case_bool_decide; [intros [= <-]; by left|].
  destruct l as [|x [|??]]; [done| |done]. intros [= <-].
  intros [-> _]%lookup_replicate. by right.
Qed.

Lemma lookup_singleton_eq {A} (a b : A) i : [b] !! i = Some a → a = b.
Proof. by intros H%list_elem_of_lookup_2%list_elem_of_singleton. Qed.

(** A pixel of a broadcast slice is a pixel of the source, and the pixel
    of the source at the same position when there is one. *)
Lemma broadcast_to_pixel {A} H W (src dst : list (list A)) y x d :
  broadcast_to H W src = Ok dst → pixel dst (y, x) = Some d →
  (∃ q, pixel src q = Some d) ∧ (∀ a, pixel src (y, x) = Some a → a = d).
Proof.
  unfold broadcast_to. destruct (broadcast_axis H src) as [rows|] eqn:Er; [|done].
  cbn [mbind result_bind]. intros Hm Hd. cbn [pixel] in Hd.
  destruct (dst !! y) as [row'|] eqn:Ey; [|done]. cbn [mbind option_bind] in Hd.
  destruct (mapR_lookup _ _ _ _ _ Hm Ey) as (r & Hr & Hb).
  destruct (broadcast_axis_lookup _ _ _ _ _ Er Hr) as [Hs| ->];
    destruct (broadcast_axis_lookup _ _ _ _ _ Hb Hd) as [Hx| ->].
  - split; [exists (y, x); cbn [pixel]; by rewrite Hs|].
    intros a. cbn [pixel]. rewrite Hs. cbn [mbind option_bind]. congruence.
  - split; [exists (y, 0%nat); cbn [pixel]; by rewrite Hs|].
    intros a. cbn [pixel]. rewrite Hs. cbn [mbind option_bind].
    apply lookup_singleton_eq.
  - split; [by exists (0%nat, x)|].
    intros a. cbn [pixel]. destruct ([r] !! y) as [r0|] eqn:E0; [|done].
    apply lookup_singleton_eq in E0 as ->. cbn [mbind option_bind]. congruence.
  - split; [by exists (0%nat, 0%nat)|].
    intros a. cbn [pixel]. destruct ([[d]] !! y) as [r0|] eqn:E0; [|done].
    apply lookup_singleton_eq in E0 as ->. cbn [mbind option_bind].
    apply lookup_singleton_eq.
Qed.

Section roi_more.
Context {Float : Type}.
Variable round_div : Float → Float → result Z.
Variable edt_no_zero : nat → nat → nat → nat → Z.
Variable uint16_out_of_range : Z → Z.

Local Abbreviation edt := (distance_transform_edt edt_no_zero).
Local Abbreviation u16 := (to_uint16 uint16_out_of_range).
Local Abbreviation roi_mask_of' := (roi_mask_of edt_no_zero uint16_out_of_range).
Local Abbreviation create_roi_mask' :=
  (create_roi_mask round_div edt_no_zero uint16_out_of_range).

(** The distance maps of the slices, once broadcast to [img_size]; the
    threshold only enters in the comparison that follows. *)
Lemma roi_mask_of_maps (R : Image3) m sz :
  roi_mask_of' R m sz =
  mapR (λ item, broadcast_to sz.1 sz.2 (map2 u16 (edt (logical_not item))))
       (greater_0 R)
  ≫= λ maps : list (list (list Z)), Ok ((λ dm, less_than dm m) <$> maps).
Proof. unfold roi_mask_of. apply mapR_bind_ok. Qed.

(** X7. [create_roi_mask] writes to the target array and to nothing
    else: the store keeps its size, every other array is what it was,
    and when the call raises the store is unchanged, target included. *)
Theorem create_roi_mask_writes_target_only ref tgt roi px fill sz h :
  let out := run (create_roi_mask round_div edt_no_zero uint16_out_of_range
                    ref tgt roi px fill sz) h in
  length out.2 = length h
  ∧ (∀ l, l ≠ tgt → out.2 !! l = h !! l)
  ∧ (raises out.1 → out.2 = h).
Proof.
  cbv zeta. rewrite create_roi_mask_run.
  destruct (round_div roi px) as [m|e]; [|by repeat split].
  destruct (roi_mask_of' (h !!! ref) m sz) as [mask|e]; [|by repeat split].
  destruct (assign_where (invert3 mask) (h !!! tgt) fill) as [T'|e];
    [|by repeat split].
  cbn [fst snd]. split; [apply length_insert|]. split.
  - intros l Hl. by apply list_lookup_insert_ne.
  - by intros [e He].
Qed.

(** X8. One threshold after a larger one is the smaller one alone: when
    [round(roi_size / pixel_size)] is [m'] for the first call and
    [m ≤ m'] for the second, masking the target the first call has masked
    leaves what the second call leaves on the unmasked target (the
    reference being another array than the target). *)
Theorem create_roi_mask_nested_thresholds ref tgt roi roi' px fill sz h l h1 m m' :
  ref ≠ tgt →
  round_div roi' px = Ok m' → round_div roi px = Ok m → m ≤ m' →
  run (create_roi_mask round_div edt_no_zero uint16_out_of_range
         ref tgt roi' px fill sz) h = (Ok l, h1) →
  run (create_roi_mask round_div edt_no_zero uint16_out_of_range
         ref tgt roi px fill sz) h1
  = run (create_roi_mask round_div edt_no_zero uint16_out_of_range
           ref tgt roi px fill sz) h.
Proof.
  intros Hne Hm' Hm Hle Hrun.
  assert (∃ maps T1,
            mapR (λ item, broadcast_to sz.1 sz.2
                            (map2 u16 (edt (logical_not item))))
                 (greater_0 (h !!! ref)) = Ok maps
            ∧ assign_where (invert3 ((λ dm, less_than dm m') <$> maps))
                (h !!! tgt) fill = Ok T1
            ∧ h1 = <[tgt := T1]> h) as (maps & T1 & Emaps & E1 & ->).
  { rewrite create_roi_mask_run, Hm', roi_mask_of_maps in Hrun.
    destruct (mapR _ (greater_0 (h !!! ref))) as [maps|];
      cbn [mbind result_bind] in Hrun; [|done].
    destruct (assign_where _ (h !!! tgt) fill) as [T1|] eqn:E1; [|done].
    injection Hrun as <- <-. eauto. }
  destruct (decide (tgt < length h)%nat) as [Hlt|Hge];
    [|by rewrite list_insert_ge by lia].
  rewrite !create_roi_mask_run, Hm, !roi_mask_of_maps.
  rewrite list_lookup_total_insert_ne by done. rewrite Emaps.
  cbn [mbind result_bind]. rewrite list_lookup_total_insert_eq by done.
  unfold assign_where, same_shape3 in *.
  case_bool_decide as E2; [|done]. injection E1 as <-. clear Hrun.
  assert (EL : ∀ k : Z, lengths3 (invert3 ((λ dm, less_than dm k) <$> maps))
                        = lengths3 maps).
  { intros k. unfold invert3. rewrite lengths3_map3.
    change ((λ dm, less_than dm k) <$> maps) with
      (map3 (λ d, bool_decide (d < k)) maps). apply lengths3_map3. }
  rewrite EL in E2. rewrite !EL.
  rewrite lengths3_zip_with3 by (by rewrite EL). rewrite EL.
  rewrite !bool_decide_eq_true_2 by done.
  rewrite list_insert_insert_eq. do 2 f_equal. apply image_ext.
  - rewrite !lengths3_zip_with3; rewrite ?EL; try done.
    by rewrite lengths3_zip_with3; rewrite EL.
  - intros p u. rewrite !voxel_zip_with3. unfold invert3.
    rewrite !voxel_map3.
    change ((λ dm, less_than dm m) <$> maps) with
      (map3 (λ d, bool_decide (d < m)) maps).
    change ((λ dm, less_than dm m') <$> maps) with
      (map3 (λ d, bool_decide (d < m')) maps).
    rewrite !voxel_map3.
    destruct (voxel maps p) as [d|]; [|done]. simpl.
    destruct (voxel (h !!! tgt) p) as [v|]; [|done]. simpl.
    intros [= <-]. f_equal.
    destruct (decide (d < m)) as [Hd|Hd].
    + rewrite (bool_decide_eq_true_2 (d < m)) by done.
      by rewrite (bool_decide_eq_true_2 (d < m')) by lia.
    + by rewrite (bool_decide_eq_false_2 (d < m)) by done.
Qed.
(** What a successful call leaves: the distance maps have the shape of
    the target, and the target is overwritten where the map is not below
    the threshold. *)
Lemma create_roi_mask_ok_inv ref tgt roi px fill sz h l h1 :
  run (create_roi_mask' ref tgt roi px fill sz) h = (Ok l, h1) →
  ∃ m maps,
    round_div roi px = Ok m
    ∧ mapR (λ item, broadcast_to sz.1 sz.2
                      (map2 u16 (edt (logical_not item))))
           (greater_0 (h !!! ref)) = Ok maps
    ∧ lengths3 maps = lengths3 (h !!! tgt)
    ∧ l = tgt
    ∧ h1 = <[tgt := zip_with3 (λ (b : bool) v, if b then fill else v)
                      (invert3 ((λ dm, less_than dm m) <$> maps))
                      (h !!! tgt)]> h.
Proof.
  rewrite create_roi_mask_run.
  destruct (round_div roi px) as [m|]; [|done]. rewrite roi_mask_of_maps.
  destruct (mapR _ (greater_0 (h !!! ref))) as [maps|];
    cbn [mbind result_bind]; [|done].
  unfold assign_where, same_shape3. case_bool_decide as E; [|done].
  intros [= <- <-]. exists m, maps. repeat split; try done.
  rewrite <- E. unfold invert3. rewrite lengths3_map3.
  change ((λ dm, less_than dm m) <$> maps) with
    (map3 (λ d, bool_decide (d < m)) maps). by rewrite lengths3_map3.
Qed.

Lemma voxel_masked (maps T : Image3) m fill p :
  voxel (zip_with3 (λ (b : bool) v, if b then fill else v)
           (invert3 ((λ dm, less_than dm m) <$> maps)) T) p
  = (d ← voxel maps p; v ← voxel T p;
     Some (if bool_decide (d < m) then v else fill)).
Proof.
  rewrite voxel_zip_with3. unfold invert3. rewrite voxel_map3.
  change ((λ dm, less_than dm m) <$> maps) with
    (map3 (λ d, bool_decide (d < m)) maps). rewrite voxel_map3.
  destruct (voxel maps p) as [d|]; [|done]. cbn.
  destruct (voxel T p) as [v|]; [|done]. cbn. by destruct (bool_decide (d < m)).
Qed.

(** A value of a distance map is a stored distance, and the stored
    distance 0 at a position where the reference is positive. *)
Lemma voxel_distance_maps (R : Image3) sz maps z y x d :
  mapR (λ item, broadcast_to sz.1 sz.2 (map2 u16 (edt (logical_not item))))
       (greater_0 R) = Ok maps →
  voxel maps (z, y, x) = Some d →
  (∃ d2, d = u16 d2)
  ∧ (∀ r, voxel R (z, y, x) = Some r → 0 < r → d = 0).
Proof.
  intros Hm Hd. cbn [voxel] in Hd.
  destruct (maps !! z) as [Mz|] eqn:Ez; [|done]. cbn [mbind option_bind] in Hd.
  destruct (mapR_lookup _ _ _ _ _ Hm Ez) as (item & Hi & Hb).
  unfold greater_0, map3 in Hi. rewrite list_lookup_fmap in Hi.
  destruct (R !! z) as [s|] eqn:Es; [|done]. injection Hi as <-.
  destruct (broadcast_to_pixel _ _ _ _ y x d Hb Hd) as [[q Hq] Hsame].
  split.
  - rewrite pixel_map2 in Hq.
    destruct (pixel (edt _) q) as [d2|]; [|done]. injection Hq as <-. eauto.
  - intros r Hr Hpos. symmetry. apply Hsame.
    rewrite pixel_map2, pixel_edt. cbn [voxel] in Hr. rewrite Es in Hr.
    cbn [mbind option_bind] in Hr.
    destruct (s !! y) as [row|] eqn:Ey; [|done]. cbn [mbind option_bind] in Hr.
    unfold logical_not, map2. rewrite !list_lookup_fmap, Ey. cbn.
    rewrite !list_lookup_fmap, Hr. cbn.
    rewrite bool_decide_eq_true_2 by done. cbn.
    unfold to_uint16. by rewrite bool_decide_eq_true_2 by (by cbn).
Qed.


(** X10. With a threshold of at least 1, a call that succeeds leaves the
    target untouched wherever the reference is positive: the distance
    there is 0. *)
Theorem create_roi_mask_keeps_reference_voxels
    ref tgt roi px fill sz h l h1 m p r :
  round_div roi px = Ok m → 1 ≤ m →
  run (create_roi_mask round_div edt_no_zero uint16_out_of_range
         ref tgt roi px fill sz) h = (Ok l, h1) →
  voxel (h !!! ref) p = Some r → 0 < r →
  voxel (h1 !!! tgt) p = voxel (h !!! tgt) p.
Proof.
  intros Hm Hle Hrun Hr Hpos.
  destruct (create_roi_mask_ok_inv _ _ _ _ _ _ _ _ _ Hrun)
    as (m0 & maps & Hm0 & Hmaps & EL & -> & ->).
  assert (m0 = m) as -> by congruence.
  destruct (decide (tgt < length h)%nat) as [Hlt|Hge];
    [|by rewrite list_insert_ge by lia].
  rewrite list_lookup_total_insert_eq by done. rewrite voxel_masked.
  destruct p as [[z y] x].
  destruct (voxel (h !!! tgt) (z, y, x)) as [v|] eqn:Ev;
    [|by destruct (voxel maps (z, y, x))].
  destruct (voxel_Some_lengths _ maps _ _ (eq_sym EL) Ev) as [d Ed].
  rewrite Ed. cbn.
  destruct (voxel_distance_maps _ _ _ _ _ _ _ Hmaps Ed) as [_ H0].
  rewrite (H0 r Hr Hpos). by rewrite bool_decide_eq_true_2 by lia.
Qed.
End roi_more.

Lemma create_roi_mask_nested_thresholds_witness :
  run (create_roi_mask_int 0%nat 1%nat 1 1 1 (1%nat, 3%nat))
      [ [[[2; 0; 0]]]; [[[0; 3; 1]]] ]
  = run (create_roi_mask_int 0%nat 1%nat 1 1 1 (1%nat, 3%nat)) heap_a.
Proof.
  apply (create_roi_mask_nested_thresholds round_div_int no_zero_0
           out_of_range_0 0 1 1 2 1 1 (1%nat, 3%nat) heap_a 1%nat _ 1 2).
  - lia.
  - reflexivity.
  - reflexivity.
  - lia.
  - reflexivity.
Defined.


Lemma create_roi_mask_keeps_reference_voxels_witness :
  voxel ([ [[[2; 0; 0]]]; [[[0; 3; 1]]] ] !!! 1%nat) (0, 0, 0)%nat
  = voxel (heap_a !!! 1%nat) (0, 0, 0)%nat.
Proof.
  apply (create_roi_mask_keeps_reference_voxels round_div_int no_zero_0
           out_of_range_0 0 1 2 1 1 (1%nat, 3%nat) heap_a 1%nat
           [ [[[2; 0; 0]]]; [[[0; 3; 1]]] ] 2 (0, 0, 0)%nat 2).
  - reflexivity.
  - lia.
  - reflexivity.
  - reflexivity.
  - lia.
Defined.

(** * What the computations leave of the store *)

Section frame.
Implicit Types (h : heap).

Lemma preserves_bind {A B} (h0 : heap) (m : M A) (k : A → M B) (Q : A → Prop)
    (Q' : B → Prop) :
  preserves h0 m Q → (∀ a, Q a → preserves h0 (k a) Q') →
  preserves h0 (m ≫= k) Q'.
Proof.
  intros Hm Hk h Hh. rewrite run_bind. destruct (Hm h Hh) as [Hp HQ].
  destruct (run m h) as [[a|e] h1]; [|done].
  apply (Hk a); [by apply HQ|done].
Qed.

Lemma preserves_ret {A} (h0 : heap) (a : A) (Q : A → Prop) :
  Q a → preserves h0 (mret a) Q.
Proof. intros Ha h Hh. split; [done|]. by intros a' [= <-]. Qed.

Lemma preserves_lift {A} (h0 : heap) (r : result A) : preserves h0 (lift r) (λ _, True).
Proof. by intros h Hh. Qed.

Lemma preserves_load (h0 : heap) l : preserves h0 (load l) (λ _, True).
Proof. by intros h Hh. Qed.

Lemma preserves_alloc (h0 : heap) v : preserves h0 (alloc v) (λ l, (length h0 ≤ l)%nat).
Proof.
  intros h Hh. cbn [alloc run fst snd]. split.
  - by apply prefix_app_r.
  - intros a [= <-]. by apply prefix_length.
Qed.

Lemma prefix_insert_ge (h0 h : heap) l v :
  h0 `prefix_of` h → (length h0 ≤ l)%nat → h0 `prefix_of` <[l := v]> h.
Proof.
  intros [k ->] Hl. exists (<[(l - length h0)%nat := v]> k).
  by rewrite insert_app_r_alt.
Qed.

Lemma preserves_store (h0 : heap) l v :
  (length h0 ≤ l)%nat → preserves h0 (store l v) (λ _, True).
Proof. intros Hl h Hh. split; [|done]. by apply prefix_insert_ge. Qed.

Lemma preserves_filter_labels (h0 : heap) image labels :
  preserves h0 (filter_labels image labels) (λ l, (length h0 ≤ l)%nat).
Proof.
  unfold filter_labels. eapply preserves_bind; [apply preserves_load|].
  intros img _. apply preserves_alloc.
Qed.
End frame.

Section frame_quantities.
Context {Float : Type}.
Variable round_div : Float → Float → result Z.
Variable of_int : Z → Float.
Variable edt_no_zero : nat → nat → nat → nat → Z.
Variable uint16_out_of_range : Z → Z.
Implicit Types (self : Sample Float) (h : heap).

Lemma preserves_getitem (h0 : heap) d key : preserves h0 (getitem d key) (λ _, True).
Proof. by intros h Hh. Qed.

Lemma preserves_create_roi_mask (h0 : heap) ref tgt roi px fill sz :
  (length h0 ≤ tgt)%nat →
  preserves h0 (create_roi_mask round_div edt_no_zero uint16_out_of_range
                  ref tgt roi px fill sz) (λ l, (length h0 ≤ l)%nat).
Proof.
  intros Hl h Hh. rewrite create_roi_mask_run.
  destruct (round_div roi px) as [m|e]; [|done].
  destruct (roi_mask_of edt_no_zero uint16_out_of_range (h !!! ref) m sz)
    as [mask|e]; [|done].
  destruct (assign_where (invert3 mask) (h !!! tgt) fill) as [T'|e]; [|done].
  split; [by apply prefix_insert_ge|]. by intros a [= <-].
Qed.

Lemma preserves_get_BIC_images (h0 : heap) self use_roi :
  preserves h0
    (get_BIC_images round_div of_int edt_no_zero uint16_out_of_range
       self use_roi)
    (λ images, (length h0 ≤ images.1)%nat ∧ (length h0 ≤ images.2)%nat).
Proof.
  unfold get_BIC_images.
  eapply preserves_bind; [apply preserves_getitem|]. intros l_screw _.
  eapply preserves_bind; [apply preserves_getitem|]. intros l_layer _.
  eapply preserves_bind; [apply preserves_filter_labels|]. intros screw Hs.
  eapply preserves_bind; [apply preserves_load|]. intros screw_v _.
  eapply preserves_bind; [by apply preserves_store|]. intros _ _.
  eapply preserves_bind; [apply preserves_getitem|]. intros l_bone _.
  eapply preserves_bind; [apply preserves_filter_labels|]. intros bone Hb.
  eapply preserves_bind; [apply preserves_load|]. intros bone_v _.
  eapply preserves_bind; [apply preserves_load|]. intros screw_v' _.
  eapply preserves_bind; [apply preserves_alloc|]. intros screw_bone Hsb.
  destruct use_roi; [|by apply preserves_ret].
  eapply preserves_bind; [apply preserves_getitem|]. intros l_background _.
  eapply preserves_bind; [by apply preserves_create_roi_mask|].
  intros screw' Hs'.
  eapply preserves_bind; [by apply preserves_create_roi_mask|].
  intros screw_bone' Hsb'. by apply preserves_ret.
Qed.

Lemma preserves_get_bone_to_implant_contact (h0 : heap) self :
  preserves h0
    (get_bone_to_implant_contact round_div of_int edt_no_zero
       uint16_out_of_range self) (λ _, True).
Proof.
  unfold get_bone_to_implant_contact.
  eapply preserves_bind; [apply preserves_get_BIC_images|].
  intros [screw screw_bone] _.
  eapply preserves_bind; [apply preserves_load|]. intros screw_bone_v _.
  eapply preserves_bind; [apply preserves_getitem|]. intros l_screw _.
  eapply preserves_bind; [apply preserves_getitem|]. intros l_bone _.
  eapply preserves_bind; [apply preserves_lift|]. intros c1 _.
  eapply preserves_bind; [apply preserves_load|]. intros screw_v _.
  eapply preserves_bind; [apply preserves_getitem|]. intros l_background _.
  eapply preserves_bind; [apply preserves_lift|]. intros c2 _.
  apply preserves_lift.
Qed.

(** X11. The bone-to-implant contact is computed on copies:
    [get_BIC_images] and [get_bone_to_implant_contact] only add arrays
    to the store.  Whatever the sample and whether the call returns or
    raises, the store it ends on begins with the store it started on, so
    the reference and the target of the sample are what they were. *)
Theorem bic_leaves_arrays_untouched self use_roi h :
  h `prefix_of`
    (run (get_BIC_images round_div of_int edt_no_zero uint16_out_of_range
            self use_roi) h).2
  ∧ h `prefix_of`
      (run (get_bone_to_implant_contact round_div of_int edt_no_zero
              uint16_out_of_range self) h).2.
Proof.
  split.
  - by apply (preserves_get_BIC_images h self use_roi h).
  - by apply (preserves_get_bone_to_implant_contact h self h).
Qed.
End frame_quantities.

(** * The range of BV/TV *)

Lemma np_index_elem {A} (a : list A) i v : np_index a i = Ok v → v ∈ a.
Proof.
  unfold np_index. cbv zeta. case_bool_decide; [|done].
  destruct (a !! _) as [u|] eqn:E; [|done]. intros [= <-].
  by apply list_elem_of_lookup_2 in E.
Qed.

Lemma histogram_counts_nonneg vals counts centers c :
  histogram vals = Ok (counts, centers) → c ∈ counts → 0 ≤ c.
Proof.
  destruct vals as [|v vs]; [done|]. cbn [histogram]. intros [= <- _].
  intros (b & -> & _)%list_elem_of_fmap. apply count_value_nonneg.
Qed.

Section bv_tv_range.
Context {Float : Type}.
Variable round_div : Float → Float → result Z.
Variable edt_no_zero : nat → nat → nat → nat → Z.
Variable uint16_out_of_range : Z → Z.
Implicit Types (self : Sample Float) (h : heap).

(** X12. Whenever [get_bone_volume_to_total_volume] returns, the value
    is [nan] or a quotient [n / d] of two counts with [0 ≤ n ≤ d] and
    [0 < d], a number between 0 and 1: it is never infinite and never
    negative, whatever the label codes select in the histogram. *)
Theorem bv_tv_between_0_and_1 self roi h r h' :
  run (get_bone_volume_to_total_volume round_div edt_no_zero
         uint16_out_of_range self roi) h = (Ok r, h') →
  r = NaN ∨ ∃ n d, r = Quot n d ∧ 0 ≤ n ≤ d ∧ 0 < d.
Proof.
  unfold get_bone_volume_to_total_volume. rewrite run_bind, run_getitem.
  destruct (label_dict self !! "screw") as [l_screw|]; [|done].
  rewrite run_bind.
  destruct (run (create_roi_mask _ _ _ _ _ _ _ _ _) h) as [[masked_stack|] h1];
    [|done].
  rewrite run_bind. cbn [load run]. rewrite run_bind. cbn [lift run].
  destruct (histogram (ravel3 (h1 !!! masked_stack)))
    as [[counts centers]|] eqn:Hh; [|done].
  rewrite run_bind, run_getitem.
  destruct (label_dict self !! "bone") as [l_bone|]; [|done].
  rewrite run_bind. cbn [lift run].
  destruct (np_index counts l_bone) as [v_bone|] eqn:Eb; [|done].
  rewrite run_bind, run_getitem.
  destruct (label_dict self !! "background") as [l_background|]; [|done].
  rewrite run_bind. cbn [lift run].
  destruct (np_index counts l_background) as [v_background|] eqn:Eg; [|done].
  intros [= <- <-].
  pose proof (histogram_counts_nonneg _ _ _ _ Hh (np_index_elem _ _ _ Eb)).
  pose proof (histogram_counts_nonneg _ _ _ _ Hh (np_index_elem _ _ _ Eg)).
  unfold np_true_divide. case_bool_decide as Hz.
  - left. rewrite bool_decide_eq_true_2 by lia. done.
  - right. exists v_bone, (v_bone + v_background). split; [done|lia].
Qed.

(** X13. The mask is written before anything else is looked at.  The
    store [get_bone_volume_to_total_volume] ends on is the one
    [create_roi_mask] ends on (the initial one when the label 'screw'
    is missing), whether the rest of the call returns or raises; so
    with a label dictionary without 'bone' the call raises [KeyError]
    on a target that is already masked. *)
Theorem bv_tv_store_is_masked_store self roi h :
  (run (get_bone_volume_to_total_volume round_div edt_no_zero
          uint16_out_of_range self roi) h).2
  = match label_dict self !! "screw" with
    | None => h
    | Some l_screw =>
        (run (create_roi_mask round_div edt_no_zero uint16_out_of_range
                (ref_image self) (target_image self) roi (pixel_size self)
                l_screw (img_size self)) h).2
    end
  ∧ ∀ l_screw l h1,
      label_dict self !! "screw" = Some l_screw →
      label_dict self !! "bone" = None →
      run (create_roi_mask round_div edt_no_zero uint16_out_of_range
             (ref_image self) (target_image self) roi (pixel_size self)
             l_screw (img_size self)) h = (Ok l, h1) →
      ravel3 (h1 !!! l) ≠ [] →
      run (get_bone_volume_to_total_volume round_div edt_no_zero
             uint16_out_of_range self roi) h = (Raise KeyError, h1).
Proof.
  unfold get_bone_volume_to_total_volume. split.
  - rewrite run_bind, run_getitem.
    destruct (label_dict self !! "screw") as [l_screw|]; [|done].
    rewrite run_bind.
    destruct (run (create_roi_mask _ _ _ _ _ _ _ _ _) h)
      as [[masked_stack|] h1]; [|done].
    rewrite run_bind. cbn [load run]. rewrite run_bind. cbn [lift run].
    destruct (histogram (ravel3 (h1 !!! masked_stack)))
      as [[counts centers]|]; [|done].
    rewrite run_bind, run_getitem.
    destruct (label_dict self !! "bone") as [l_bone|]; [|done].
    rewrite run_bind. cbn [lift run].
    destruct (np_index counts l_bone) as [v_bone|]; [|done].
    rewrite run_bind, run_getitem.
    destruct (label_dict self !! "background") as [l_background|]; [|done].
    rewrite run_bind. cbn [lift run].
    by destruct (np_index counts l_background).
  - intros l_screw l h1 Es Eb Hrun Hne.
    rewrite run_bind, run_getitem, Es. rewrite run_bind, Hrun.
    rewrite run_bind. cbn [load run]. rewrite run_bind. cbn [lift run].
    destruct (ravel3 (h1 !!! l)) as [|v vs]; [done|]. cbn [histogram].
    by rewrite run_bind, run_getitem, Eb.
Qed.
End bv_tv_range.

Lemma bv_tv_between_0_and_1_witness :
  Quot 1 2 = NaN ∨ ∃ n d, Quot 1 2 = Quot n d ∧ 0 ≤ n ≤ d ∧ 0 < d.
Proof.
  apply (bv_tv_between_0_and_1 round_div_int no_zero_0 out_of_range_0
           sample_a 2 heap_a (Quot 1 2) [ [[[2; 0; 0]]]; [[[0; 3; 1]]] ]).
  reflexivity.
Defined.

(** * The layers *)

Lemma mapR_raise_Exists {A B} (f : A → result B) (l : list A) e :
  Forall (λ x, (∃ y, f x = Ok y) ∨ f x = Raise e) l →
  Exists (λ x, f x = Raise e) l → mapR f l = Raise e.
Proof.
  induction 1 as [|x l Hx Hl IH]; [by intros ?%Exists_nil|].
  intros Hex. cbn [mapR]. destruct Hx as [[y Hy]|Hx]; [|by rewrite Hx].
  rewrite Hy. cbn [mbind result_bind].
  apply Exists_cons in Hex as [Hex|Hex]; [congruence|].
  by rewrite (IH Hex).
Qed.

Lemma count_voxels_per_label_ok_inv (image : Image3) label n :
  count_voxels_per_label image label = Ok n →
  in_value_range (ravel3 image) label ∧ n = count_value (ravel3 image) label.
Proof.
  rewrite count_voxels_per_label_cases.
  destruct (ravel3 image) as [|v vs]; [done|]. case_decide as H; [|done].
  intros [= <-]. split; [|done]. by apply in_value_range_cons.
Qed.

Lemma count_value_app a b c :
  count_value (a ++ b) c = count_value a c + count_value b c.
Proof. unfold count_value. rewrite filter_app, length_app. lia. Qed.

Lemma in_value_range_mono vals vals' c :
  vals ⊆ vals' → in_value_range vals c → in_value_range vals' c.
Proof. intros Hs (lo & hi & Hlo & Hhi & H). exists lo, hi. auto. Qed.

Lemma ravel3_cons s (V : Image3) : ravel3 (s :: V) = ravel2 s ++ ravel3 V.
Proof. done. Qed.

Lemma ravel3_singleton s : ravel3 [s] = ravel2 s.
Proof. rewrite ravel3_cons. apply app_nil_r. Qed.

Lemma count_value_ravel3 (V : Image3) c :
  count_value (ravel3 V) c = sum_Z ((λ s, count_value (ravel2 s) c) <$> V).
Proof.
  induction V as [|s V IH]; [done|].
  rewrite ravel3_cons, count_value_app, IH. done.
Qed.

Section layer_props.
Context {Float : Type}.
Variable times_to_mm : Z → Float.
Variable times_to_mm_area : Z → Float.

Lemma layer_volumes_ok_inv (image_list : Image3) vols :
  layer_volumes times_to_mm image_list = Ok vols →
  vols = (λ s, times_to_mm (count_value (ravel2 s) 2)) <$> image_list
  ∧ Forall (λ s, in_value_range (ravel2 s) 2) image_list.
Proof.
  unfold layer_volumes. revert vols.
  induction image_list as [|s V IH]; intros vols; [by intros [= <-]|].
  cbn [mapR].
  destruct (count_voxels_per_label [s] 2) as [n|] eqn:En; [|done].
  cbn [mbind result_bind].
  destruct (mapR _ V) as [vols'|]; [|done]. cbn [mbind result_bind].
  intros [= <-]. destruct (IH vols' eq_refl) as [-> HF].
  apply count_voxels_per_label_ok_inv in En as [Hr ->].
  rewrite ravel3_singleton in *. split; [done|]. by constructor.
Qed.

(** X14. The volumes of the layers add up to the volume of the stack:
    when the loop over the slices returns, slice [i] contributes the
    number of its voxels labelled 2 (times [to_mm]), and
    [count_voxels_per_label] on the whole stack, not empty, returns the
    sum of those numbers. *)
Theorem layer_volumes_add_up (image_list : Image3) vols :
  image_list ≠ [] →
  layer_volumes times_to_mm image_list = Ok vols →
  vols = (λ slice, times_to_mm (count_value (ravel2 slice) 2)) <$> image_list
  ∧ count_voxels_per_label image_list 2
    = Ok (sum_Z ((λ slice, count_value (ravel2 slice) 2) <$> image_list)).
Proof.
  intros Hne [-> HF]%layer_volumes_ok_inv. split; [done|].
  rewrite <- count_value_ravel3. apply count_voxels_per_label_in_range.
  destruct image_list as [|s V]; [done|].
  apply Forall_cons in HF as [Hs _].
  apply (in_value_range_mono (ravel2 s)); [|done].
  rewrite ravel3_cons. intros v Hv. apply elem_of_app. by left.
Qed.

(** X15. The loop over the slices is stricter than the count on the
    stack: with slices that are not empty, it raises [IndexError] as
    soon as one slice has no 2 within its value range (a slice without
    the label and without values on both sides of it), whatever the
    other slices hold. *)
Theorem layer_volumes_raises_on_slice_without_label (image_list : Image3) :
  Forall (λ slice, ravel2 slice ≠ []) image_list →
  Exists (λ slice, ¬ in_value_range (ravel2 slice) 2) image_list →
  layer_volumes times_to_mm image_list = Raise IndexError.
Proof.
  intros Hne Hex. unfold layer_volumes. apply mapR_raise_Exists.
  - apply Forall_forall. intros s Hs.
    destruct (count_voxels_per_label [s] 2) as [n|e] eqn:E;
      cbn [mbind result_bind]; [left; eauto|].
    right. f_equal. rewrite count_voxels_per_label_cases in E.
    rewrite ravel3_singleton in E.
    destruct (ravel2 s) as [|v vs] eqn:Es.
    { exfalso. by apply (proj1 (Forall_forall _ _) Hne s Hs). }
    case_decide; [done|]. by injection E as <-.
  - apply Exists_exists in Hex as (s & Hs & Hr). apply Exists_exists.
    exists s. split; [done|].
    rewrite count_voxels_per_label_out_of_range; [done| |];
      rewrite ravel3_singleton; [|done].
    by apply (proj1 (Forall_forall _ _) Hne).
Qed.
Lemma contact_area_layer_error (S : Image2) a b e :
  contact_area_layer S a b = Raise e → e = ValueError.
Proof.
  unfold contact_area_layer.
  destruct (ravel2 S) as [|v vs]; [by intros [= <-]|].
  cbn [histogram mbind result_bind]. case_bool_decide; [by intros [= <-]|done].
Qed.

(** X16. The loop over the slices that measures the contact of the
    labels 3 and 2 raises [ValueError] as soon as one slice is empty or
    has one of the two labels outside its value range, and returns one
    area for every slice when there is no such slice. *)
Theorem layer_areas_raises_iff (image_list : Image3) :
  (Exists (λ slice, ¬ (in_value_range (ravel2 slice) 3
                       ∧ in_value_range (ravel2 slice) 2)) image_list →
   layer_areas times_to_mm_area image_list = Raise ValueError)
  ∧ (Forall (λ slice, in_value_range (ravel2 slice) 3
                      ∧ in_value_range (ravel2 slice) 2) image_list →
     ∃ areas, layer_areas times_to_mm_area image_list = Ok areas
              ∧ length areas = length image_list).
Proof.
  unfold layer_areas. split.
  - intros Hex. apply mapR_raise_Exists.
    + apply Forall_forall. intros s Hs.
      destruct (contact_area_layer s 3 2) as [n|e] eqn:E;
        cbn [mbind result_bind]; [left; eauto|].
      right. by rewrite (contact_area_layer_error _ _ _ _ E).
    + apply (Exists_impl _ _ _ Hex). intros s Hs.
      apply contact_area_layer_raises_iff in Hs as [e He].
      rewrite He. cbn [mbind result_bind].
      by rewrite (contact_area_layer_error _ _ _ _ He).
  - induction 1 as [|s V Hs HV [areas [IH IHl]]]; [by exists []|].
    cbn [mapR]. destruct (contact_area_layer s 3 2) as [n|e] eqn:E.
    + cbn [mbind result_bind]. rewrite IH. cbn [mbind result_bind].
      eexists. split; [done|]. simpl. by rewrite IHl.
    + exfalso. apply (proj1 (contact_area_layer_raises_iff s 3 2)); [|done].
      by exists e.
Qed.
End layer_props.

Lemma layer_volumes_add_up_witness :
  [2; 1] = (λ slice, Datatypes.id (count_value (ravel2 slice) 2))
             <$> [ [[0; 2; 2]]; [[2; 3]] ]
  ∧ count_voxels_per_label [ [[0; 2; 2]]; [[2; 3]] ] 2
    = Ok (sum_Z ((λ slice, count_value (ravel2 slice) 2)
                   <$> [ [[0; 2; 2]]; [[2; 3]] ])).
Proof.
  apply (layer_volumes_add_up Datatypes.id [ [[0; 2; 2]]; [[2; 3]] ] [2; 1]).
  - done.
  - reflexivity.
Defined.

Lemma layer_volumes_raises_on_slice_without_label_witness :
  layer_volumes Datatypes.id [ [[0; 2; 2]]; [[0; 0]] ] = Raise IndexError.
Proof.
  apply (layer_volumes_raises_on_slice_without_label Datatypes.id
           [ [[0; 2; 2]]; [[0; 0]] ]).
  - repeat constructor; done.
  - apply Exists_cons_tl, Exists_cons_hd.
    intros (lo & hi & Hlo & Hhi & H). vm_compute in Hhi.
    apply list_elem_of_In in Hhi. simpl in Hhi. lia.
Defined.

(** * Stacking the slices *)

Lemma ravel2_map2 (f : Z → Z) (s : Image2) : ravel2 (map2 f s) = f <$> ravel2 s.
Proof.
  unfold ravel2, map2. induction s as [|r s IH]; [done|].
  csimpl. by rewrite fmap_app, IH.
Qed.

Lemma ravel3_map3 (f : Z → Z) (V : Image3) : ravel3 (map3 f V) = f <$> ravel3 V.
Proof.
  induction V as [|s V IH]; [done|].
  change (map3 f (s :: V)) with (map2 f s :: map3 f V).
  by rewrite !ravel3_cons, fmap_app, ravel2_map2, IH.
Qed.

Lemma count_value_relabel (vals : list Z) l2 :
  count_value ((λ v, if bool_decide (v = l2) then 2 else 0) <$> vals) 2
  = count_value vals l2.
Proof.
  unfold count_value. f_equal.
  induction vals as [|v vals IH]; [done|]. csimpl.
  rewrite !filter_cons. case_bool_decide as E.
  - rewrite !decide_True by done. simpl. by rewrite IH.
  - rewrite !decide_False by done. done.
Qed.

Lemma shape2_of_first {A} ny nx (first image : list (list A)) :
  shape2 ny nx first → shape2 ny nx image →
  shape2 (length first) (default 0%nat (length <$> head first)) image.
Proof.
  intros [L1 F1] [L2 F2]. destruct first as [|r first].
  - simpl in *. subst ny. destruct image; [|done]. by split.
  - apply Forall_cons in F1 as [Hr _]. simpl in *. rewrite Hr.
    split; [lia|done].
Qed.

(** X17. On a list, not empty, of slices of one shape,
    [stack_2d_images] returns the stack of the slices in which a voxel
    is 2 where the slice holds [label2] and 0 elsewhere, whatever
    [label1] is.  Counting the voxels labelled 2 in the result gives the
    number of voxels labelled [label2] in the slices when there is one,
    and raises [IndexError] when there is none (the result is then all
    zeros). *)
Theorem stack_2d_images_relabels ny nx (image_list : list Image2) label1 label2 :
  image_list ≠ [] → Forall (shape2 ny nx) image_list →
  stack_2d_images image_list label1 label2
  = Ok (map3 (λ v, if bool_decide (v = label2) then 2 else 0) image_list)
  ∧ (label2 ∈ ravel3 image_list →
     count_voxels_per_label
       (map3 (λ v, if bool_decide (v = label2) then 2 else 0) image_list) 2
     = Ok (count_value (ravel3 image_list) label2))
  ∧ (ravel3 image_list ≠ [] → label2 ∉ ravel3 image_list →
     count_voxels_per_label
       (map3 (λ v, if bool_decide (v = label2) then 2 else 0) image_list) 2
     = Raise IndexError).
Proof.
  intros Hne HF. split; [|split].
  - destruct image_list as [|first rest]; [done|]. cbn [stack_2d_images].
    cbv zeta. cbn [fst snd]. apply mapR_ok. intros img Himg.
    apply broadcast_to_same, shape2_map2.
    apply (shape2_of_first ny nx).
    + by apply Forall_cons in HF as [? _].
    + by apply (proj1 (Forall_forall _ _) HF).
  - intros Hin. rewrite count_voxels_per_label_in_range.
    + by rewrite ravel3_map3, count_value_relabel.
    + apply in_value_range_elem. rewrite ravel3_map3.
      apply list_elem_of_fmap. exists label2. split; [|done].
      by rewrite bool_decide_eq_true_2.
  - intros Hv Hnot. apply count_voxels_per_label_out_of_range.
    + rewrite ravel3_map3. by destruct (ravel3 image_list).
    + rewrite ravel3_map3. intros (lo & hi & _ & Hhi & H).
      apply list_elem_of_fmap in Hhi as (v & -> & Hv').
      rewrite bool_decide_eq_false_2 in H by congruence. lia.
Qed.

Lemma stack_2d_images_relabels_witness :
  stack_2d_images [ [[0; 3]; [3; 1]]; [[3; 3]; [0; 0]] ] 7 3
  = Ok [ [[0; 2]; [2; 0]]; [[2; 2]; [0; 0]] ]
  ∧ (3 ∈ ravel3 [ [[0; 3]; [3; 1]]; [[3; 3]; [0; 0]] ] →
     count_voxels_per_label [ [[0; 2]; [2; 0]]; [[2; 2]; [0; 0]] ] 2
     = Ok (count_value (ravel3 [ [[0; 3]; [3; 1]]; [[3; 3]; [0; 0]] ]) 3))
  ∧ (ravel3 [ [[0; 3]; [3; 1]]; [[3; 3]; [0; 0]] ] ≠ [] →
     3 ∉ ravel3 [ [[0; 3]; [3; 1]]; [[3; 3]; [0; 0]] ] →
     count_voxels_per_label [ [[0; 2]; [2; 0]]; [[2; 2]; [0; 0]] ] 2
     = Raise IndexError).
Proof.
  apply (stack_2d_images_relabels 2 2 [ [[0; 3]; [3; 1]]; [[3; 3]; [0; 0]] ] 7 3).
  - done.
  - repeat constructor.
Defined.

(** * Smoothing *)

Lemma foldl_relabel (md v : Z) (labels : list Z) :
  foldl (λ acc l, if bool_decide (md = l) then l else acc) v labels
  = if decide (md ∈ labels) then md else v.
Proof.
  revert v. induction labels as [|l labels IH]; intros v; cbn [foldl].
  - destruct (decide (md ∈ [])) as [H|]; [by apply elem_of_nil in H|done].
  - rewrite IH. destruct (decide (md ∈ l :: labels)) as [Hin|Hout].
    + destruct (decide (md ∈ labels)) as [|Hn]; [done|].
      apply elem_of_cons in Hin as [->|?]; [|done].
      by rewrite bool_decide_eq_true_2.
    + rewrite decide_False by (intros ?; apply Hout; by right).
      rewrite bool_decide_eq_false_2; [done|].
      intros ->. apply Hout. by left.
Qed.

Lemma assign_where_ok mask (a : Image3) value :
  lengths3 mask = lengths3 a →
  assign_where mask a value
  = Ok (zip_with3 (λ (m : bool) v, if m then value else v) mask a).
Proof.
  intros E. unfold assign_where, same_shape3.
  by rewrite bool_decide_eq_true_2.
Qed.

Section smoothing_props.
Variable median_filter : Image3 → Image3.
Implicit Types (h : heap).

(** One turn of the loop: [image[median == label] = label]. *)
Lemma smooth_step_voxel (M img : Image3) label p :
  voxel (zip_with3 (λ (b : bool) v, if b then label else v)
           (map3 (λ v, bool_decide (v = label)) M) img) p
  = (md ← voxel M p; v ← voxel img p;
     Some (if bool_decide (md = label) then label else v)).
Proof.
  rewrite voxel_zip_with3, voxel_map3.
  by destruct (voxel M p) as [md|].
Qed.

Lemma smooth_loop (M : Image3) image median labels h :
  image ≠ median → (image < length h)%nat →
  h !!! median = M → lengths3 M = lengths3 (h !!! image) →
  ∃ S, run (for_each labels (λ label,
              med ← load median;
              img ← load image;
              smoothed ← lift (assign_where
                                 (map3 (λ v, bool_decide (v = label)) med)
                                 img label);
              store image smoothed)) h
       = (Ok (), <[image := S]> h)
     ∧ lengths3 S = lengths3 (h !!! image)
     ∧ ∀ p v md, voxel (h !!! image) p = Some v → voxel M p = Some md →
         voxel S p
         = Some (foldl (λ acc l, if bool_decide (md = l) then l else acc)
                       v labels).
Proof.
  intros Hne. revert h.
  induction labels as [|label labels IH]; intros h Hlt HM HL.
  - exists (h !!! image). cbn [for_each]. split; [|done].
    cbn. f_equal. symmetry. apply list_insert_id.
    by apply list_lookup_lookup_total_lt.
  - cbn [for_each]. rewrite run_bind. rewrite !run_bind. cbn [load run].
    rewrite !run_bind. cbn [load run]. rewrite !run_bind. cbn [lift run].
    rewrite HM. rewrite assign_where_ok by (by rewrite lengths3_map3).
    cbn [store run].
    set (img' := zip_with3 _ _ (h !!! image)).
    assert (HL' : lengths3 img' = lengths3 (h !!! image)).
    { unfold img'. rewrite lengths3_zip_with3; rewrite lengths3_map3; done. }
    destruct (IH (<[image := img']> h)) as (S & Hrun & HS & Hvox).
    + by rewrite length_insert.
    + by rewrite list_lookup_total_insert_ne.
    + rewrite list_lookup_total_insert_eq by done. congruence.
    + exists S. rewrite Hrun, list_insert_insert_eq.
      rewrite list_lookup_total_insert_eq in HS, Hvox by done.
      split; [done|]. split; [congruence|].
      intros p v md Hv Hmd. cbn [foldl]. apply Hvox; [|done].
      unfold img'. by rewrite smooth_step_voxel, Hmd, Hv.
Qed.

(** X18. [smooth_labels] works in place and returns the array it was
    given.  With a median filter that keeps the shape of its input, the
    call on an array of the store returns that array's location; the
    store has grown by the filtered copy [F] and its median, every other
    array is what it was, and a voxel of the image now holds the median
    there when the median is one of the labels and its old value when it
    is not. *)
Theorem smooth_labels_in_place image labels h :
  (∀ a, lengths3 (median_filter a) = lengths3 a) →
  (image < length h)%nat →
  ∃ S F,
    run (filter_labels image labels) h = (Ok (length h), h ++ [F])
    ∧ run (smooth_labels median_filter image labels) h
      = (Ok image, <[image := S]> h ++ [F; median_filter F])
    ∧ lengths3 S = lengths3 (h !!! image)
    ∧ ∀ p v md, voxel (h !!! image) p = Some v →
        voxel (median_filter F) p = Some md →
        voxel S p = Some (if decide (md ∈ labels) then md else v).
Proof.
  intros Hmed Hlt.
  set (F := foldl (filter_labels_step (h !!! image))
                  (map3 (λ _, 0) (h !!! image)) labels).
  assert (HF : lengths3 F = lengths3 (h !!! image))
    by apply lengths3_foldl_filter_labels_step, lengths3_map3.
  destruct (smooth_loop (median_filter F) image (S (length h)) labels
              (h ++ [F; median_filter F])) as (S' & Hrun & HS & Hvox).
  - lia.
  - rewrite length_app. lia.
  - change (h ++ [F; median_filter F]) with (h ++ [F] ++ [median_filter F]).
    rewrite app_assoc. apply list_lookup_total_middle.
    rewrite length_app. simpl. lia.
  - rewrite lookup_total_app_l by done. by rewrite Hmed.
  - rewrite lookup_total_app_l in HS, Hvox by done.
    exists S', F. split; [done|]. split; [|split; [done|]].
    + unfold smooth_labels. rewrite run_bind.
      change (run (filter_labels image labels) h)
        with (Ok (length h), h ++ [F]).
      cbv iota. rewrite run_bind. cbn [load run].
      rewrite list_lookup_total_middle by done.
      rewrite run_bind. cbn [alloc run]. rewrite length_app. cbn [length].
      replace (length h + 1)%nat with (S (length h)) by lia.
      rewrite <- app_assoc. cbn [app]. rewrite run_bind, Hrun.
      cbn. by rewrite insert_app_l.
    + intros p v md Hv Hmd. rewrite (Hvox p v md Hv Hmd).
      by rewrite foldl_relabel.
Qed.
End smoothing_props.

Lemma smooth_labels_in_place_witness :
  ∃ S F,
    run (filter_labels 1%nat [1]) heap_d = (Ok (length heap_d), heap_d ++ [F])
    ∧ run (smooth_labels (map3 (λ _, 1)) 1%nat [1]) heap_d
      = (Ok 1%nat, <[1%nat := S]> heap_d ++ [F; map3 (λ _, 1) F])
    ∧ lengths3 S = lengths3 (heap_d !!! 1%nat)
    ∧ ∀ p v md, voxel (heap_d !!! 1%nat) p = Some v →
        voxel (map3 (λ _, 1) F) p = Some md →
        voxel S p = Some (if decide (md ∈ [1]) then md else v).
Proof.
  apply (smooth_labels_in_place (map3 (λ _, 1)) 1%nat [1] heap_d).
  - intros a. apply lengths3_map3.
  - simpl. lia.
Defined.

(** * The shapes [create_roi_mask] accepts *)

Lemma mapR_ok_Forall {A B} (f : A → result B) (P : B → Prop) (l : list A) :
  Forall (λ x, ∃ y, f x = Ok y ∧ P y) l →
  ∃ ys, mapR f l = Ok ys ∧ length ys = length l ∧ Forall P ys.
Proof.
  induction 1 as [|x l (y & Hy & Py) Hl (ys & IH & IHl & IHP)].
  - by exists [].
  - exists (y :: ys). cbn [mapR]. rewrite Hy. cbn [mbind result_bind].
    rewrite IH. cbn [mbind result_bind]. split; [done|].
    split; [simpl; by rewrite IHl|by constructor].
Qed.

Lemma broadcast_axis_ok {A} n (l : list A) :
  length l = n ∨ length l = 1%nat →
  ∃ l', broadcast_axis n l = Ok l' ∧ length l' = n ∧ ∀ x, x ∈ l' → x ∈ l.
Proof.
  intros H. unfold broadcast_axis. case_bool_decide as E.
  - by exists l.
  - destruct H as [?|H]; [done|]. destruct l as [|x [|??]]; [done| |done].
    exists (replicate n x). split; [done|]. split; [apply length_replicate|].
    intros y ->%elem_of_replicate_inv. by left.
Qed.

Lemma broadcast_axis_raise {A} n (l : list A) :
  length l ≠ n → length l ≠ 1%nat → broadcast_axis n l = Raise ValueError.
Proof.
  intros H1 H2. unfold broadcast_axis. rewrite bool_decide_eq_false_2 by done.
  by destruct l as [|x [|??]].
Qed.

Lemma broadcast_to_ok {A} H W ny nx (src : list (list A)) :
  shape2 ny nx src → ny = H ∨ ny = 1%nat → nx = W ∨ nx = 1%nat →
  ∃ dst, broadcast_to H W src = Ok dst ∧ shape2 H W dst.
Proof.
  intros [L F] Hy Hx. unfold broadcast_to.
  destruct (broadcast_axis_ok H src) as (rows & -> & Lr & Hin); [lia|].
  cbn [mbind result_bind].
  destruct (mapR_ok_Forall (broadcast_axis W) (λ r, length r = W) rows)
    as (dst & -> & Ld & Fd).
  - apply Forall_forall. intros r Hr%Hin.
    destruct (broadcast_axis_ok W r) as (r' & -> & Lr' & _); [|by eauto].
    rewrite (proj1 (Forall_forall _ _) F r Hr). lia.
  - exists dst. split; [done|]. split; [congruence|done].
Qed.

Lemma broadcast_to_raise {A} H W ny nx (src : list (list A)) :
  shape2 ny nx src → (0 < H)%nat →
  ¬ ((ny = H ∨ ny = 1%nat) ∧ (nx = W ∨ nx = 1%nat)) →
  broadcast_to H W src = Raise ValueError.
Proof.
  intros [L F] HH Hbad. unfold broadcast_to.
  destruct (decide (ny = H ∨ ny = 1%nat)) as [Hy|Hy].
  - destruct (broadcast_axis_ok H src) as (rows & -> & Lr & Hin); [lia|].
    cbn [mbind result_bind]. destruct rows as [|r rows]; [simpl in Lr; lia|].
    apply mapR_raise_first.
    assert (length r = nx) as Hr
      by (apply (proj1 (Forall_forall _ _) F), Hin; by left).
    apply broadcast_axis_raise; lia.
  - rewrite broadcast_axis_raise by lia. done.
Qed.

Lemma shape3_lengths {A} nz H W (a : list (list (list A))) :
  shape3 nz H W a ↔ lengths3 a = replicate nz (replicate H W).
Proof.
  split; [apply lengths3_shape|]. intros E. split.
  - apply (f_equal length) in E. unfold lengths3, map2 in E.
    by rewrite length_fmap, length_replicate in E.
  - apply Forall_lookup. intros z s Hs.
    pose proof (f_equal (.!! z) E) as Ez. rewrite lengths3_lookup, Hs in Ez.
    simpl in Ez. symmetry in Ez. apply lookup_replicate in Ez as [Ez _].
    split.
    + apply (f_equal length) in Ez.
      by rewrite length_fmap, length_replicate in Ez.
    + apply Forall_lookup. intros y r Hr.
      pose proof (f_equal (.!! y) Ez) as Ey.
      rewrite list_lookup_fmap, Hr in Ey. simpl in Ey. symmetry in Ey.
      by apply lookup_replicate in Ey as [Ey _].
Qed.

Section roi_shapes.
Context {Float : Type}.
Variable round_div : Float → Float → result Z.
Variable edt_no_zero : nat → nat → nat → nat → Z.
Variable uint16_out_of_range : Z → Z.

Local Abbreviation edt := (distance_transform_edt edt_no_zero).
Local Abbreviation u16 := (to_uint16 uint16_out_of_range).

Lemma shape2_distance_map ny nx (s : Image2) :
  shape2 ny nx s →
  shape2 ny nx
    (map2 u16 (edt (logical_not (map2 (λ v, bool_decide (0 < v)) s)))).
Proof. intros Hs. by apply shape2_map2, shape2_edt, shape2_map2, shape2_map2. Qed.

(** X19. Which shapes [create_roi_mask] accepts, for a reference stack
    of [nz] slices of [ny × nx] voxels (none of the sizes 0) and a
    threshold that could be computed.  The distance map of a slice is
    broadcast to [img_size]: when [ny] is neither [img_size[0]] nor 1,
    or [nx] neither [img_size[1]] nor 1, the call raises [ValueError];
    when it can be broadcast, the call raises [IndexError] unless the
    target is a stack of [nz] slices of size [img_size], and in that
    case it returns the target, whose shape it keeps.  A call that
    raises leaves the store as it was. *)
Theorem create_roi_mask_shape_cases ref tgt roi px fill sz h nz ny nx m :
  shape3 nz ny nx (h !!! ref) →
  (0 < nz)%nat → (0 < ny)%nat → (0 < nx)%nat → (0 < sz.1)%nat →
  round_div roi px = Ok m →
  (¬ ((ny = sz.1 ∨ ny = 1%nat) ∧ (nx = sz.2 ∨ nx = 1%nat)) →
   run (create_roi_mask round_div edt_no_zero uint16_out_of_range
          ref tgt roi px fill sz) h = (Raise ValueError, h))
  ∧ (ny = sz.1 ∨ ny = 1%nat → nx = sz.2 ∨ nx = 1%nat →
     ¬ shape3 nz sz.1 sz.2 (h !!! tgt) →
     run (create_roi_mask round_div edt_no_zero uint16_out_of_range
            ref tgt roi px fill sz) h = (Raise IndexError, h))
  ∧ (ny = sz.1 ∨ ny = 1%nat → nx = sz.2 ∨ nx = 1%nat →
     shape3 nz sz.1 sz.2 (h !!! tgt) →
     ∃ T', run (create_roi_mask round_div edt_no_zero uint16_out_of_range
                  ref tgt roi px fill sz) h = (Ok tgt, <[tgt := T']> h)
           ∧ shape3 nz sz.1 sz.2 T').
Proof.
  intros [LR FR] Hnz Hny Hnx HH Hm.
  rewrite !create_roi_mask_run, Hm, roi_mask_of_maps.
  assert (Hok : ny = sz.1 ∨ ny = 1%nat → nx = sz.2 ∨ nx = 1%nat →
            ∃ maps,
              mapR (λ item, broadcast_to sz.1 sz.2
                              (map2 u16 (edt (logical_not item))))
                   (greater_0 (h !!! ref)) = Ok maps
              ∧ shape3 nz sz.1 sz.2 maps).
  { intros Hy Hx.
    destruct (mapR_ok_Forall
                (λ item, broadcast_to sz.1 sz.2
                           (map2 u16 (edt (logical_not item))))
                (shape2 sz.1 sz.2) (greater_0 (h !!! ref)))
      as (maps & Hmaps & Lm & Fm).
    - apply Forall_forall. intros item (s & -> & Hs)%list_elem_of_fmap.
      apply (broadcast_to_ok _ _ ny nx); [|done..].
      apply shape2_distance_map. by apply (proj1 (Forall_forall _ _) FR).
    - exists maps. split; [done|]. split; [|done].
      rewrite Lm. unfold greater_0, map3. by rewrite length_fmap. }
  assert (Hmask : ∀ maps : Image3,
            lengths3 (invert3 ((λ dm, less_than dm m) <$> maps))
            = lengths3 maps).
  { intros maps. unfold invert3. rewrite lengths3_map3.
    change ((λ dm, less_than dm m) <$> maps) with
      (map3 (λ d, bool_decide (d < m)) maps). apply lengths3_map3. }
  split; [|split].
  - intros Hbad. destruct (h !!! ref) as [|s R]; [simpl in LR; lia|].
    unfold greater_0, map3. rewrite fmap_cons.
    rewrite (mapR_raise_first _ _ _ ValueError); [done|].
    apply (broadcast_to_raise _ _ ny nx); [|done..].
    apply shape2_distance_map. by apply Forall_cons in FR as [? _].
  - intros Hy Hx Hbad. destruct (Hok Hy Hx) as (maps & -> & Sm).
    cbn [mbind result_bind]. unfold assign_where, same_shape3.
    rewrite bool_decide_eq_false_2; [done|].
    rewrite Hmask. intros E. apply Hbad, shape3_lengths.
    rewrite <- E. by apply shape3_lengths.
  - intros Hy Hx Ht. destruct (Hok Hy Hx) as (maps & -> & Sm).
    cbn [mbind result_bind]. rewrite assign_where_ok.
    + eexists. split; [done|]. apply shape3_lengths.
      rewrite lengths3_zip_with3, Hmask; [by apply shape3_lengths|].
      rewrite Hmask. apply shape3_lengths in Sm, Ht. congruence.
    + rewrite Hmask. apply shape3_lengths in Sm, Ht. congruence.
Qed.
End roi_shapes.

Lemma create_roi_mask_shape_cases_witness :
  (¬ ((1 = 1 ∨ 1 = 1) ∧ (3 = 3 ∨ 3 = 1))%nat →
   run (create_roi_mask_int 0%nat 1%nat 2 1 1 (1%nat, 3%nat)) heap_a
   = (Raise ValueError, heap_a))
  ∧ ((1 = 1 ∨ 1 = 1)%nat → (3 = 3 ∨ 3 = 1)%nat →
     ¬ shape3 1 1 3 (heap_a !!! 1%nat) →
     run (create_roi_mask_int 0%nat 1%nat 2 1 1 (1%nat, 3%nat)) heap_a
     = (Raise IndexError, heap_a))
  ∧ ((1 = 1 ∨ 1 = 1)%nat → (3 = 3 ∨ 3 = 1)%nat →
     shape3 1 1 3 (heap_a !!! 1%nat) →
     ∃ T', run (create_roi_mask_int 0%nat 1%nat 2 1 1 (1%nat, 3%nat)) heap_a
           = (Ok 1%nat, <[1%nat := T']> heap_a)
           ∧ shape3 1 1 3 T').
Proof.
  apply (create_roi_mask_shape_cases round_div_int no_zero_0 out_of_range_0
           0 1 2 1 1 (1%nat, 3%nat) heap_a 1 1 3 2).
  - split; [done|]. repeat constructor.
  - lia.
  - lia.
  - lia.
  - simpl. lia.
  - reflexivity.
Defined.

(** * The images of the bone-to-implant contact *)

Lemma filter_labels_run image labels (h : heap) :
  run (filter_labels image labels) h
  = (Ok (length h),
     h ++ [foldl (filter_labels_step (h !!! image))
                 (map3 (λ _, 0) (h !!! image)) labels]).
Proof. done. Qed.

Lemma filtered_voxel (T : Image3) labels p v :
  0 ∉ labels → Forall (λ l, -128 ≤ l ≤ 127) labels →
  voxel T p = Some v →
  voxel (foldl (filter_labels_step T) (map3 (λ _, 0) T) labels) p
  = Some (if decide (v ∈ labels) then v else 0).
Proof.
  intros H0 Hr Hv.
  rewrite (voxel_foldl_filter_labels_step _ _ _ _ v 0); [| |done|].
  - by rewrite filtered_value_no_zero.
  - apply lengths3_map3.
  - by rewrite voxel_map3, Hv.
Qed.

Section bic_images.
Context {Float : Type}.
Variable round_div : Float → Float → result Z.
Variable of_int : Z → Float.
Variable edt_no_zero : nat → nat → nat → nat → Z.
Variable uint16_out_of_range : Z → Z.
Implicit Types (self : Sample Float) (h : heap).

(** X20. What [get_BIC_images] builds without the region of interest,
    for label codes other than 0 that fit [int8], with the code of the
    bone different from those of the screw and of the degradation
    layer.  Three arrays of the shape of the target are added to the
    store and the first and the third are returned: in the first a
    voxel is 'screw' where the target is screw or degradation layer
    and 0 elsewhere; the third holds in addition 'bone' where the
    target is bone. *)
Theorem get_BIC_images_without_roi self h l_screw l_layer l_bone :
  label_dict self !! "screw" = Some l_screw →
  label_dict self !! "degradation_layer" = Some l_layer →
  label_dict self !! "bone" = Some l_bone →
  (target_image self < length h)%nat →
  l_screw ≠ 0 → l_layer ≠ 0 → l_bone ≠ 0 →
  l_bone ≠ l_screw → l_bone ≠ l_layer →
  Forall (λ l, -128 ≤ l ≤ 127) [l_screw; l_layer; l_bone] →
  ∃ screw bone screw_bone,
    run (get_BIC_images round_div of_int edt_no_zero uint16_out_of_range
           self false) h
    = (Ok (length h, S (S (length h))), h ++ [screw; bone; screw_bone])
    ∧ lengths3 screw = lengths3 (h !!! target_image self)
    ∧ lengths3 screw_bone = lengths3 (h !!! target_image self)
    ∧ ∀ p v, voxel (h !!! target_image self) p = Some v →
        voxel screw p
        = Some (if decide (v = l_screw ∨ v = l_layer) then l_screw else 0)
        ∧ voxel screw_bone p
          = Some (if decide (v = l_screw ∨ v = l_layer) then l_screw
                  else if decide (v = l_bone) then l_bone else 0).
Proof.
  intros Es El Eb Hlt Hs0 Hl0 Hb0 Hbs Hbl Hr.
  apply Forall_cons in Hr as [Hrs Hr]. apply Forall_cons in Hr as [Hrl Hr].
  apply Forall_cons in Hr as [Hrb _].
  assert (Hr2 : Forall (λ l, -128 ≤ l ≤ 127) [l_screw; l_layer])
    by (repeat (constructor; [done|]); constructor).
  assert (Hr1 : Forall (λ l, -128 ≤ l ≤ 127) [l_bone])
    by (repeat (constructor; [done|]); constructor).
  set (T := h !!! target_image self).
  set (F1 := foldl (filter_labels_step T) (map3 (λ _, 0) T) [l_screw; l_layer]).
  set (screw := map3 (λ v, if bool_decide (v = l_layer) then int8 l_screw
                           else v) F1).
  set (bone := foldl (filter_labels_step T) (map3 (λ _, 0) T) [l_bone]).
  set (screw_bone := zip_with3 (λ x y, int8 (x + y)) bone screw).
  assert (HF1 : lengths3 F1 = lengths3 T)
    by apply lengths3_foldl_filter_labels_step, lengths3_map3.
  assert (Hsc : lengths3 screw = lengths3 T)
    by (unfold screw; by rewrite lengths3_map3).
  assert (Hbn : lengths3 bone = lengths3 T)
    by apply lengths3_foldl_filter_labels_step, lengths3_map3.
  exists screw, bone, screw_bone. split; [|split; [done|split]].
  - unfold get_BIC_images.
    rewrite run_bind, run_getitem, Es. rewrite run_bind, run_getitem, El.
    rewrite run_bind, filter_labels_run. fold T. fold F1.
    rewrite run_bind. cbn [load run].
    rewrite list_lookup_total_middle by done.
    rewrite run_bind. cbn [store run].
    rewrite insert_app_r_alt by done. rewrite Nat.sub_diag. cbn [insert list_insert].
    fold screw.
    rewrite run_bind, run_getitem, Eb.
    rewrite run_bind, filter_labels_run.
    rewrite lookup_total_app_l by done. fold T. fold bone.
    rewrite run_bind. cbn [load run].
    rewrite <- app_assoc. cbn [app].
    change (h ++ [screw; bone]) with (h ++ [screw] ++ [bone]).
    rewrite app_assoc.
    rewrite (list_lookup_total_middle (h ++ [screw]) [] bone)
      by (rewrite !length_app; simpl; lia).
    rewrite run_bind. cbn [load run].
    rewrite <- app_assoc. cbn [app].
    rewrite (list_lookup_total_middle h [bone] screw) by done.
    rewrite run_bind. cbn [alloc run]. fold screw_bone.
    rewrite <- app_assoc. cbn [app]. cbn [mret M_ret run].
    rewrite !length_app. cbn [length]. do 3 f_equal. lia.
  - unfold screw_bone. rewrite lengths3_zip_with3; congruence.
  - intros p v Hv.
    assert (E1 : voxel screw p
                 = Some (if decide (v = l_screw ∨ v = l_layer)
                         then l_screw else 0)).
    { unfold screw. rewrite voxel_map3. unfold F1.
      rewrite (filtered_voxel T _ p v); [| |done|done].
      2:{ intros [?|[?|?%elem_of_nil]%elem_of_cons]%elem_of_cons;
            [congruence|congruence|done]. }
      cbn. f_equal. rewrite int8_small by done.
      destruct (decide (v ∈ [l_screw; l_layer])) as [Hin|Hout].
      - apply elem_of_cons in Hin as [->|Hin].
        + rewrite decide_True by (by left). by case_bool_decide.
        + apply elem_of_cons in Hin as [->|?%elem_of_nil]; [|done].
          rewrite decide_True by (by right).
          by rewrite bool_decide_eq_true_2.
      - rewrite bool_decide_eq_false_2 by congruence.
        rewrite decide_False; [done|].
        intros [->| ->]; apply Hout; [by left|by right; left]. }
    split; [done|].
    unfold screw_bone. rewrite voxel_zip_with3, E1. unfold bone.
    rewrite (filtered_voxel T _ p v); [| |done|done].
    2:{ intros [?|?%elem_of_nil]%elem_of_cons; [congruence|done]. }
    cbn. f_equal.
    destruct (decide (v = l_screw ∨ v = l_layer)) as [Hsl|Hsl].
    + rewrite decide_False.
      * by rewrite Z.add_0_l, int8_small.
      * intros ->%list_elem_of_singleton. destruct Hsl; congruence.
    + destruct (decide (v = l_bone)) as [->|Hnb].
      * rewrite decide_True by (by apply list_elem_of_singleton).
        by rewrite Z.add_0_r, int8_small.
      * rewrite decide_False by (by intros ?%list_elem_of_singleton).
        done.
Qed.
End bic_images.

Lemma get_BIC_images_without_roi_witness :
  ∃ screw bone screw_bone,
    run (get_BIC_images round_div_int (λ z, z) no_zero_0 out_of_range_0
           sample_d false) heap_d
    = (Ok (length heap_d, S (S (length heap_d))),
       heap_d ++ [screw; bone; screw_bone])
    ∧ lengths3 screw = lengths3 (heap_d !!! target_image sample_d)
    ∧ lengths3 screw_bone = lengths3 (heap_d !!! target_image sample_d)
    ∧ ∀ p v, voxel (heap_d !!! target_image sample_d) p = Some v →
        voxel screw p = Some (if decide (v = 1 ∨ v = 4) then 1 else 0)
        ∧ voxel screw_bone p
          = Some (if decide (v = 1 ∨ v = 4) then 1
                  else if decide (v = 3) then 3 else 0).
Proof.
  apply (get_BIC_images_without_roi round_div_int (λ z, z) no_zero_0
           out_of_range_0 sample_d heap_d 1 4 3).
  - reflexivity.
  - reflexivity.
  - reflexivity.
  - simpl. lia.
  - lia.
  - lia.
  - lia.
  - lia.
  - lia.
  - repeat constructor; lia.
Defined.
